(** * The artifact store of graphql-mesh: [packages/store/src/index.ts]

    A shallow embedding of the [MeshStore] hierarchy, of the per-key
    [StoreProxy] cache, of the two storage adapters and of the validation of
    the schema strategy, followed by theorems about them.

    Conventions of the embedding:
    - a [Promise]-returning function is a function in the monad [M]: it
      threads the mutable state, either completes normally or throws, and
      emits the list of calls it made to the storage adapter, to [validate]
      and to the setter function.  Awaits are run one after the other: calls
      on a proxy do not interleave;
    - the two closure variables of a proxy, [value] and [isValueCached], are
      the first two fields of the state; the state of the medium behind the
      storage adapter is the third.  A state that is thrown from is kept as
      it is at the throw: JavaScript undoes nothing;
    - [codify], [validate] and the setter function are taken to be pure (§3
      of the specification): they return or throw, and do not touch the
      proxy or the medium;
    - [join] is [path.join] of Node.js, in its POSIX form;
    - what comes from other packages or from the runtime ([diff], the
      message of an [AggregateError], [flatString], the file system and the
      dynamic [import]) is a variable of the section that uses it. *)

From Stdlib Require Import String Ascii List ZArith Bool Lia.
From stdpp Require Import base gmap strings list.

Set Default Proof Using "Type".

(** ** POSIX [path.join] *)

Module Path.

Definition slash : ascii := Ascii.ascii_of_nat 47.

Definition isPathSeparator (c : ascii) : bool :=
  if decide (c = slash) then true else false.

(** The segments of a path: the strings between separators
    (as [String.prototype.split] with the separator [/]). *)
Fixpoint segments (path : string) : list string :=
  match path with
  | EmptyString => [EmptyString]
  | String c rest =>
      if isPathSeparator c then EmptyString :: segments rest
      else match segments rest with
           | seg :: segs => String c seg :: segs
           | [] => [String c EmptyString]
           end
  end.

Definition isAbsolute (path : string) : bool :=
  match path with
  | String c _ => isPathSeparator c
  | EmptyString => false
  end.

Fixpoint trailingSeparator (path : string) : bool :=
  match path with
  | EmptyString => false
  | String c EmptyString => isPathSeparator c
  | String _ rest => trailingSeparator rest
  end.

(** One turn of the loop of [normalizeString], at the end of a segment.
    [res] is the result so far, as the list of its segments, last one
    first.  An empty segment and [.] change nothing; [..] removes the last
    segment unless there is none or it is [..] itself, in which case [..]
    is appended when [allowAboveRoot] holds; any other segment is
    appended. *)
Definition normalizeSegment (allowAboveRoot : bool)
    (res : list string) (seg : string) : list string :=
  if decide (seg = "") then res
  else if decide (seg = ".") then res
  else if decide (seg = "..") then
    match res with
    | last :: before =>
        if decide (last = "..")
        then (if allowAboveRoot then ".." :: res else res)
        else before
    | [] => if allowAboveRoot then [".."] else []
    end
  else seg :: res.

Definition normalizeSegments (allowAboveRoot : bool)
    (res : list string) (segs : list string) : list string :=
  fold_left (normalizeSegment allowAboveRoot) segs res.

Definition joinSegments (segs : list string) : string :=
  String.concat "/" segs.

Definition normalizeString (path : string) (allowAboveRoot : bool) : string :=
  joinSegments (rev (normalizeSegments allowAboveRoot [] (segments path))).

Definition normalize (path : string) : string :=
  if decide (path = "") then "."
  else
    let absolute := isAbsolute path in
    let trailing := trailingSeparator path in
    let res := normalizeString path (negb absolute) in
    if decide (res = "") then
      (if absolute then "/" else if trailing then "./" else ".")
    else
      (if absolute then "/" else "") +:+ res +:+ (if trailing then "/" else "").

(** [path.join(a, b)]: the non-empty arguments, separated by [/], then
    normalised; [.] when both are empty. *)
Definition join (a b : string) : string :=
  match filter (λ arg, arg ≠ "") [a; b] with
  | [] => "."
  | args => normalize (joinSegments args)
  end.

(** A path that [join] leaves as it is when it comes second: its segments
    are names, none of them empty, [.] or [..] (so it is not empty, does not
    begin or end with a separator, and has no separator twice in a row). *)
Definition plainSegment (seg : string) : bool :=
  negb (bool_decide (seg = "")) && negb (bool_decide (seg = ".")) &&
  negb (bool_decide (seg = "..")).

Definition plainPath (path : string) : bool :=
  forallb plainSegment (segments path).

Fixpoint hasSeparator (path : string) : bool :=
  match path with
  | EmptyString => false
  | String c rest => isPathSeparator c || hasSeparator rest
  end.

(** The segments that normalising [path] leaves, last one first, and the
    text that [join path] puts in front of a plain path. *)
Definition resolved (path : string) : list string :=
  normalizeSegments (negb (isAbsolute path)) [] (segments path).

Definition directory (segs : list string) : string :=
  match segs with
  | [] => ""
  | _ => joinSegments segs +:+ "/"
  end.

Definition base (path : string) : string :=
  (if isAbsolute path then "/" else "") +:+ directory (rev (resolved path)).

(** The results of normalising: nothing empty, no [.], no separator inside
    a segment, and [..] only below [..], and only when that is allowed. *)
Fixpoint normalForm (allowAboveRoot : bool) (res : list string) : Prop :=
  match res with
  | [] => True
  | seg :: rest =>
      seg ≠ "" ∧ seg ≠ "." ∧ hasSeparator seg = false ∧
      (seg = ".." →
       allowAboveRoot = true ∧
       match rest with [] => True | below :: _ => below = ".." end) ∧
      normalForm allowAboveRoot rest
  end.

End Path.

(** ** JavaScript values and errors *)

(** The values a proxy holds ([TData | null | undefined], with [TData = any]
    in the predefined strategies).  Numbers are restricted to integers. *)
#[warnings="-register-all"] Inductive JsValue : Type :=
| JUndefined
| JNull
| JBoolean (b : bool)
| JNumber (n : Z)
| JString (s : string)
| JObject (properties : list (string * JsValue)).

(** [ToBoolean]: what [if (v)], [!v] and [v && w] test. *)
Definition truthy (v : JsValue) : bool :=
  match v with
  | JUndefined | JNull => false
  | JBoolean b => b
  | JNumber n => negb (n =? 0)%Z
  | JString s => if decide (s = "") then false else true
  | JObject _ => true
  end.

(** A value is absent when it is [null] or [undefined]. *)
Definition absent (v : JsValue) : bool :=
  match v with
  | JUndefined | JNull => true
  | _ => false
  end.

(** The errors that are thrown: the two classes the module exports,
    [AggregateError] of [@ardatan/aggregate-error], and any other [Error]
    (raised by a storage medium, a strategy or a setter function). *)
Inductive JsError : Type :=
| ReadonlyStoreError (message : string)
| ValidationError (message : string)
| AggregateError (errors : list string) (message : string)
| Error (message : string).

Definition message (e : JsError) : string :=
  match e with
  | ReadonlyStoreError m | ValidationError m | AggregateError _ m | Error m => m
  end.

(** How a call ends: with a value, or with a thrown error. *)
Inductive Completion (T : Type) : Type :=
| Normal (result : T)
| Throw (e : JsError).
Arguments Normal {T} result.
Arguments Throw {T} e.

(** ** Strategies, flags and the storage adapter interface *)

Record ProxyOptions : Type := {
  codify : JsValue → string → Completion string;
  validate : JsValue → JsValue → string → Completion unit;
}.

Module StoreFlags.
Record t : Type := { readonly : bool; validate : bool }.
(** [Partial<StoreFlags>]: a key that is not given is [None]. *)
Record partial : Type := { readonly_opt : option bool; validate_opt : option bool }.
(** [{ ...flags, ...overrides }] *)
Definition spread (flags : t) (overrides : partial) : t :=
  {| readonly := default (readonly flags) (readonly_opt overrides);
     validate := default (validate flags) (validate_opt overrides) |}.
(** [child(id)] without a second argument: spreading [undefined]. *)
Definition no_overrides : partial :=
  {| readonly_opt := None; validate_opt := None |}.
End StoreFlags.
Abbreviation StoreFlags := StoreFlags.t.

(** [StoreStorageAdapter]: an adapter object of type [A] over a medium
    whose state has type [W]. *)
Class StoreStorageAdapter (A W : Type) : Type := {
  storage_exists : A → string → W → Completion bool * W;
  storage_read : A → string → ProxyOptions → W → Completion JsValue * W;
  storage_write : A → string → JsValue → ProxyOptions → W → Completion unit * W;
  storage_delete : A → string → W → Completion unit * W;
}.

(** The contract of §6 for the two queries: they leave the medium as it is. *)
Class QueriesPreserveStorage (A W : Type) `{StoreStorageAdapter A W} : Prop := {
  storage_exists_preserves :
    ∀ (a : A) key (w : W), (storage_exists a key w).2 = w;
  storage_read_preserves :
    ∀ (a : A) key options (w : W), (storage_read a key options w).2 = w;
}.

(** *** [InMemoryStoreStorageAdapter]

    Every adapter object owns a [Map]; the heap gives the [Map] of each
    object, and an object that was never written to has an empty one. *)
Module InMemoryStoreStorageAdapter.

Record t : Type := { data : nat }.

Abbreviation Heap := (gmap nat (gmap string JsValue)).

Definition data_of (this : t) (h : Heap) : gmap string JsValue :=
  default ∅ (h !! data this).

Definition exists_ (this : t) (key : string) (h : Heap) : Completion bool * Heap :=
  (Normal (match data_of this h !! key with Some _ => true | None => false end), h).

Definition read (this : t) (key : string) (options : ProxyOptions) (h : Heap)
  : Completion JsValue * Heap :=
  (Normal (default JUndefined (data_of this h !! key)), h).

Definition write (this : t) (key : string) (v : JsValue) (options : ProxyOptions)
    (h : Heap) : Completion unit * Heap :=
  (Normal (), <[data this := <[key := v]> (data_of this h)]> h).

Definition delete (this : t) (key : string) (h : Heap) : Completion unit * Heap :=
  (Normal (), <[data this := base.delete key (data_of this h)]> h).

Definition clear (this : t) (h : Heap) : Heap :=
  <[data this := ∅]> h.

End InMemoryStoreStorageAdapter.

#[export] Instance InMemory_adapter :
  StoreStorageAdapter InMemoryStoreStorageAdapter.t InMemoryStoreStorageAdapter.Heap := {|
  storage_exists := InMemoryStoreStorageAdapter.exists_;
  storage_read := InMemoryStoreStorageAdapter.read;
  storage_write := InMemoryStoreStorageAdapter.write;
  storage_delete := InMemoryStoreStorageAdapter.delete;
|}.

(** *** [FsStoreStorageAdapter]

    The medium is everything the process reaches through the file system
    and the module loader: the files and the directories, and the modules
    that were imported already.  The adapter touches it through four
    functions that are not of this module: [pathExists] and [writeFile] of
    [@graphql-mesh/utils], [unlink] of [fs.promises] and the dynamic
    [import] of the runtime.  They are variables of the section, with
    [flatString], and nothing is assumed about them: each may throw, and
    each may leave the medium in another state. *)
Module FsStoreStorageAdapter.

Inductive ModuleExtension : Type := mjs | js.

Definition extension (e : ModuleExtension) : string :=
  match e with mjs => "mjs" | js => "js" end.

Record t : Type := { moduleExtension : ModuleExtension }.

(** What a dynamic [import] resolves to: the module object, and its
    property [default] ([undefined] when the module has no default export). *)
Record JsModule : Type := { default_export : JsValue; namespace : JsValue }.

Definition getWrittenFileName (this : t) (key : string) : string :=
  key +:+ "." +:+ extension (moduleExtension this).

Section Fs.
Context {World : Type}.
Variable pathExists : string → World → Completion bool * World.
Variable import : string → World → Completion JsModule * World.
Variable writeFile : string → string → World → Completion unit * World.
Variable flatString : string → string.
Variable unlink : string → World → Completion unit * World.

Definition exists_ (this : t) (key : string) (w : World) : Completion bool * World :=
  let filePath := getWrittenFileName this key in
  pathExists filePath w.

(** [import(filePath).then(m => m.default || m)] *)
Definition read (this : t) (key : string) (options : ProxyOptions) (w : World)
  : Completion JsValue * World :=
  let filePath := getWrittenFileName this key in
  match import filePath w with
  | (Throw e, w') => (Throw e, w')
  | (Normal m, w') =>
      (Normal (if truthy (default_export m) then default_export m else namespace m), w')
  end.

Definition write (this : t) (key : string) (v : JsValue) (options : ProxyOptions)
    (w : World) : Completion unit * World :=
  match codify options v key with
  | Throw e => (Throw e, w)
  | Normal asString =>
      let filePath := getWrittenFileName this key in
      writeFile filePath (flatString asString) w
  end.

Definition delete (this : t) (key : string) (w : World) : Completion unit * World :=
  let filePath := getWrittenFileName this key in
  unlink filePath w.

Definition adapter : StoreStorageAdapter t World := {|
  storage_exists := exists_;
  storage_read := read;
  storage_write := write;
  storage_delete := delete;
|}.

End Fs.
End FsStoreStorageAdapter.

(** ** Predefined strategies *)

Module CriticalityLevel.
Inductive t : Type := Breaking | NonBreaking | Dangerous.
(** [===] on the members of the enumeration. *)
Definition eqb (a b : t) : bool :=
  match a, b with
  | Breaking, Breaking | NonBreaking, NonBreaking | Dangerous, Dangerous => true
  | _, _ => false
  end.
End CriticalityLevel.

(** [Change] of [@graphql-inspector/core], with the two fields that are read. *)
Record Change : Type := {
  criticality_level : CriticalityLevel.t;
  change_message : string;
}.

Module PredefinedProxyOptions.

(** [validate: () => null] *)
Definition validate_nothing (oldValue newValue : JsValue) (identifier : string)
  : Completion unit := Normal ().

Definition offending (change : Change) : bool :=
  CriticalityLevel.eqb (criticality_level change) CriticalityLevel.Breaking ||
  CriticalityLevel.eqb (criticality_level change) CriticalityLevel.Dangerous.

(** The loop [for (const change of changes)] with its accumulator [errors]. *)
Fixpoint collect_errors (changes : list Change) (errors : list string) : list string :=
  match changes with
  | [] => errors
  | change :: rest =>
      collect_errors rest
        (if offending change then errors ++ [change_message change] else errors)
  end.

Section Diffing.
(** [diff] of [@graphql-inspector/core], and the message that the
    constructor of [AggregateError] builds from the errors it is given. *)
Variable diff : JsValue → JsValue → list Change.
Variable aggregateMessage : list string → string.

Definition GraphQLSchemaWithDiffing_validate
    (oldSchema newSchema : JsValue) (identifier : string) : Completion unit :=
  let changes := diff oldSchema newSchema in
  let errors := collect_errors changes [] in
  if (0 <? length errors)%nat
  then Throw (AggregateError errors (aggregateMessage errors))
  else Normal ().

End Diffing.
End PredefinedProxyOptions.

(** ** The monad of asynchronous calls *)

(** What a proxy calls: the four operations of its storage adapter, the
    [validate] function of its strategy, and the setter function. *)
Inductive Call : Type :=
| StorageExists (key : string)
| StorageRead (key : string)
| StorageWrite (key : string) (data : JsValue)
| StorageDelete (key : string)
| OptionsValidate (oldValue newValue : JsValue) (identifier : string)
| SetterFn.

(** The mutable state a proxy works on: its two closure variables, and the
    medium behind the storage adapter of its store. *)
Record ProxyState (W : Type) : Type := {
  value : JsValue;
  isValueCached : bool;
  medium : W;
}.
Arguments value {W} _.
Arguments isValueCached {W} _.
Arguments medium {W} _.

(** [let value; let isValueCached = false;] *)
Definition fresh {W : Type} (w : W) : ProxyState W :=
  {| value := JUndefined; isValueCached := false; medium := w |}.

Definition M (W T : Type) : Type :=
  ProxyState W → Completion T * ProxyState W * list Call.

#[export] Instance M_ret {W} : MRet (M W) :=
  λ T (x : T) σ, (Normal x, σ, []).

#[export] Instance M_bind {W} : MBind (M W) :=
  λ T U (f : T → M W U) (m : M W T) σ,
    match m σ with
    | (Normal x, σ1, calls1) =>
        let '(r, σ2, calls2) := f x σ1 in (r, σ2, calls1 ++ calls2)
    | (Throw e, σ1, calls1) => (Throw e, σ1, calls1)
    end.

Definition throw {W T} (e : JsError) : M W T :=
  λ σ, (Throw e, σ, []).

Definition emit {W} (c : Call) : M W unit :=
  λ σ, (Normal (), σ, [c]).

Definition getValue {W} : M W JsValue :=
  λ σ, (Normal (value σ), σ, []).

Definition setValue {W} (v : JsValue) : M W unit :=
  λ σ, (Normal (),
        {| value := v; isValueCached := isValueCached σ; medium := medium σ |}, []).

Definition getIsValueCached {W} : M W bool :=
  λ σ, (Normal (isValueCached σ), σ, []).

Definition setIsValueCached {W} (b : bool) : M W unit :=
  λ σ, (Normal (),
        {| value := value σ; isValueCached := b; medium := medium σ |}, []).

(** A call of an adapter operation: it sees and changes the medium only. *)
Definition onStorage {W T} (op : W → Completion T * W) : M W T :=
  λ σ, let '(r, w) := op (medium σ) in
       (r, {| value := value σ; isValueCached := isValueCached σ; medium := w |}, []).

(** [await f()] for a function that throws or returns a value. *)
Definition await {W T} (r : Completion T) : M W T :=
  λ σ, (r, σ, []).

(** ** [MeshStore] and its proxies *)

Definition dquote : string := String (Ascii.ascii_of_nat 34) EmptyString.

Record MeshStore (A : Type) : Type := {
  identifier : string;
  storage : A;
  flags : StoreFlags;
}.
Arguments identifier {A} _.
Arguments storage {A} _.
Arguments flags {A} _.

(** What the closures of one call of [proxy] share: [this], the arguments
    [id] and [options], and the constant [path]. *)
Record StoreProxy (A : Type) : Type := {
  this : MeshStore A;
  id : string;
  options : ProxyOptions;
  path : string;
}.
Arguments this {A} _.
Arguments id {A} _.
Arguments options {A} _.
Arguments path {A} _.

Module MeshStore.
Section MeshStore.
Context {A : Type}.

Definition child (this : MeshStore A) (childIdentifier : string)
    (overrides : StoreFlags.partial) : MeshStore A :=
  {| identifier := Path.join (identifier this) childIdentifier;
     storage := storage this;
     flags := StoreFlags.spread (flags this) overrides |}.

Definition proxy (this : MeshStore A) (id : string) (options : ProxyOptions)
  : StoreProxy A :=
  {| this := this; id := id; options := options;
     path := Path.join (identifier this) id |}.

End MeshStore.
End MeshStore.

Module StoreProxy.
Section StoreProxy.
Context {A W : Type} `{StoreStorageAdapter A W}.
Variable p : StoreProxy A.

Definition readonly : bool := StoreFlags.readonly (flags (this p)).
Definition validating : bool := StoreFlags.validate (flags (this p)).

Definition ensureValueCached : M W unit :=
  cached ← getIsValueCached;
  if negb cached then
    found ← (emit (StorageExists (path p));;
             onStorage (storage_exists (storage (this p)) (path p)));
    (if found : bool then
       v ← (emit (StorageRead (path p));;
            onStorage (storage_read (storage (this p)) (path p) (options p)));
       setValue v
     else mret ());;
    setIsValueCached true
  else mret ().

Definition validationMessage (e : JsError) : string :=
  "Validation failed for " +:+ dquote +:+ id p +:+ dquote +:+ " under " +:+
  dquote +:+ identifier (this p) +:+ dquote +:+ ": " +:+ message e.

Definition doValidation (newValue : JsValue) : M W unit :=
  ensureValueCached;;
  v ← getValue;
  if truthy v && truthy newValue then
    emit (OptionsValidate v newValue (id p));;
    match validate (options p) v newValue (id p) with
    | Normal _ => mret ()
    | Throw e => throw (ValidationError (validationMessage e))
    end
  else mret ().

Definition readonlyMessage : string :=
  "Unable to set value for " +:+ dquote +:+ id p +:+ dquote +:+ " under " +:+
  dquote +:+ identifier (this p) +:+ dquote +:+
  " because the store is in read-only mode.".

Definition set (newValue : JsValue) : M W unit :=
  if readonly then throw (ReadonlyStoreError readonlyMessage)
  else
    (if validating then doValidation newValue else mret ());;
    setValue newValue;;
    setIsValueCached true;;
    v ← getValue;
    emit (StorageWrite (path p) v);;
    onStorage (storage_write (storage (this p)) (path p) v (options p)).

Definition getWithSet (setterFn : Completion JsValue) : M W JsValue :=
  ensureValueCached;;
  v ← getValue;
  (if validating || negb (truthy v) then
     newValue ← (emit SetterFn;; await setterFn);
     (if validating && readonly then doValidation newValue else mret ());;
     (if negb readonly then set newValue else mret ())
   else mret ());;
  getValue.

Definition get : M W JsValue :=
  ensureValueCached;;
  getValue.

Definition delete : M W unit :=
  emit (StorageDelete (path p));;
  onStorage (storage_delete (storage (this p)) (path p)).

End StoreProxy.
End StoreProxy.

(** The four methods of a proxy object, as one type of requests.
    A method that returns nothing yields [undefined]. *)
Inductive Operation : Type :=
| OpGet
| OpSet (newValue : JsValue)
| OpGetWithSet (setterFn : Completion JsValue)
| OpDelete.

Definition perform {A W : Type} `{StoreStorageAdapter A W}
    (p : StoreProxy A) (op : Operation) : M W JsValue :=
  match op with
  | OpGet => StoreProxy.get p
  | OpSet newValue => StoreProxy.set p newValue;; mret JUndefined
  | OpGetWithSet setterFn => StoreProxy.getWithSet p setterFn
  | OpDelete => StoreProxy.delete p;; mret JUndefined
  end.

(** The calls that write to the medium, and the calls of [validate]. *)
Definition isWrite (c : Call) : bool :=
  match c with StorageWrite _ _ => true | _ => false end.

Definition isValidate (c : Call) : bool :=
  match c with OptionsValidate _ _ _ => true | _ => false end.

(** The key an adapter operation was called with. *)
Definition storageKey (c : Call) : option string :=
  match c with
  | StorageExists k | StorageRead k | StorageWrite k _ | StorageDelete k => Some k
  | _ => None
  end.

(** [needle] occurs in [text]. *)
Definition includes (needle text : string) : Prop :=
  ∃ before after, text = before +:+ needle +:+ after.

(** The number of times [validate] was invoked. *)
Definition validations (calls : list Call) : nat :=
  length (List.filter isValidate calls).

(** What a proxy over the key [id] of a store passes on: its storage key
    [path] to the adapter, and [id] itself, with two truthy values, to
    [validate]. *)
Definition wellAddressed {A : Type} (p : StoreProxy A) (c : Call) : Prop :=
  match c with
  | StorageExists k | StorageRead k | StorageWrite k _ | StorageDelete k => k = path p
  | OptionsValidate oldValue newValue identifier =>
      truthy oldValue = true ∧ truthy newValue = true ∧ identifier = id p
  | SetterFn => True
  end.

(** ** The string strategy *)

(** [String.prototype.split] with a separator of one character, and
    [Array.prototype.join]. *)
Module JsString.

Fixpoint split (separator : ascii) (str : string) : list string :=
  match str with
  | EmptyString => [EmptyString]
  | String c rest =>
      if decide (c = separator) then EmptyString :: split separator rest
      else match split separator rest with
           | piece :: pieces => String c piece :: pieces
           | [] => [String c EmptyString]
           end
  end.

Definition join (separator : string) (pieces : list string) : string :=
  String.concat separator pieces.

(** Every occurrence of a character replaced by a string. *)
Fixpoint replaceAll (c : ascii) (replacement : string) (str : string) : string :=
  match str with
  | EmptyString => EmptyString
  | String x rest =>
      (if decide (x = c) then replacement else String x EmptyString) +:+
      replaceAll c replacement rest
  end.

End JsString.

Definition backtick : ascii := Ascii.ascii_of_nat 96.
Definition dollar : ascii := Ascii.ascii_of_nat 36.
Definition backslash : ascii := Ascii.ascii_of_nat 92.

(** [str.split('`').join('\\`').split('$').join('\\$')] *)
Definition escapeForTemplateLiteral (str : string) : string :=
  JsString.join (String backslash (String dollar EmptyString))
    (JsString.split dollar
       (JsString.join (String backslash (String backtick EmptyString))
          (JsString.split backtick str))).

(** What [escapeForTemplateLiteral] puts in the place of one character. *)
Definition escapeChar (c : ascii) : string :=
  if decide (c = backtick) then String backslash (String backtick EmptyString)
  else if decide (c = dollar) then String backslash (String dollar EmptyString)
  else String c EmptyString.

Fixpoint escapeChars (str : string) : string :=
  match str with
  | EmptyString => EmptyString
  | String c rest => escapeChar c +:+ escapeChars rest
  end.

(** Whether [c] occurs in [str]. *)
Fixpoint occurs (c : ascii) (str : string) : bool :=
  match str with
  | EmptyString => false
  | String x rest => (if decide (x = c) then true else false) || occurs c rest
  end.

(** Every backtick and every dollar of [str] comes right after a backslash;
    [previous] is the character before [str]. *)
Fixpoint eachEscaped (previous : option ascii) (str : string) : bool :=
  match str with
  | EmptyString => true
  | String c rest =>
      (if decide (c = backtick ∨ c = dollar)
       then bool_decide (previous = Some backslash) else true) &&
      eachEscaped (Some c) rest
  end.

(** [codify] of [StringWithoutValidation], on the strings it is meant for:
    [v => `export default \`${escapeForTemplateLiteral(v)}\``]. *)
Definition StringWithoutValidation_codify (v : string) (identifier : string) : string :=
  "export default " +:+ String backtick EmptyString +:+
  escapeForTemplateLiteral v +:+ String backtick EmptyString.

(** ** The stores of the command line ([packages/cli/src/index.ts]) *)

Module Cli.

(** [join(baseDir, '.mesh')] *)
Definition outputDir (baseDir : string) : string := Path.join baseDir ".mesh".

(** [new FsStoreStorageAdapter()]: the extension is [mjs]. *)
Definition adapter : FsStoreStorageAdapter.t :=
  {| FsStoreStorageAdapter.moduleExtension := FsStoreStorageAdapter.mjs |}.

(** The store of the command [validate]. *)
Definition validateStore (baseDir : string) : MeshStore FsStoreStorageAdapter.t :=
  {| identifier := outputDir baseDir; storage := adapter;
     flags := {| StoreFlags.readonly := false; StoreFlags.validate := true |} |}.

(** The store of the command [build]. *)
Definition buildStore (baseDir : string) : MeshStore FsStoreStorageAdapter.t :=
  {| identifier := outputDir baseDir; storage := adapter;
     flags := {| StoreFlags.readonly := false; StoreFlags.validate := false |} |}.

End Cli.

(** ** Notions used to state what the operations keep *)

(** The calls that change the medium. *)
Definition isMutation (c : Call) : bool :=
  match c with
  | StorageWrite _ _ | StorageDelete _ => true
  | _ => false
  end.

(** The number of times the setter function was invoked. *)
Definition setterCalls (calls : list Call) : nat :=
  length (List.filter (λ c, match c with SetterFn => true | _ => false end) calls).

(** A slot that is not loaded holds no value. *)
Definition slotConsistent {W : Type} (σ : ProxyState W) : Prop :=
  isValueCached σ = false → value σ = JUndefined.

(** The node reached from a node through children that are given no
    overrides: [this.child(id1).child(id2)...]. *)
Definition descendant {A : Type} (this : MeshStore A) (ids : list string)
  : MeshStore A :=
  fold_left (λ node childIdentifier,
               MeshStore.child node childIdentifier StoreFlags.no_overrides)
    ids this.

(** ** A small installation, used to run the definitions *)

Module Scenario.

(** The one adapter object of the installation, and the store nodes over it. *)
Definition memory : InMemoryStoreStorageAdapter.t :=
  {| InMemoryStoreStorageAdapter.data := 0 |}.

Definition store (readonly validate : bool)
  : MeshStore InMemoryStoreStorageAdapter.t :=
  {| identifier := ".mesh"; storage := memory;
     flags := {| StoreFlags.readonly := readonly; StoreFlags.validate := validate |} |}.

(** A strategy whose [validate] throws on every pair of values, and one
    whose [validate] accepts every pair. *)
Definition rejecting : ProxyOptions :=
  {| codify := λ _ identifier, Normal identifier;
     validate := λ _ _ _, Throw (Error "incompatible") |}.

Definition accepting : ProxyOptions :=
  {| codify := λ _ identifier, Normal identifier;
     validate := PredefinedProxyOptions.validate_nothing |}.

(** A strategy whose [codify] throws on every value. *)
Definition unprintable : ProxyOptions :=
  {| codify := λ _ _, Throw (Error "not serializable");
     validate := PredefinedProxyOptions.validate_nothing |}.

(** The heap in which the entry [.mesh/k] of the adapter holds [v]. *)
Definition stored (v : JsValue) : gmap nat (gmap string JsValue) :=
  {[ 0%nat := {[ ".mesh/k" := v ]} ]}.

(** A proxy that has loaded [v]. *)
Definition loaded (v : JsValue) : ProxyState (gmap nat (gmap string JsValue)) :=
  {| value := v; isValueCached := true; medium := stored v |}.

(** A file system for the examples.  Its state is the text of every
    regular file, by absolute path, in directories that exist and can be
    written to; there is one generated module, which does not load. *)
Definition brokenFiles : gmap string string :=
  {[ "/out/k.mjs" := "export default" ]}.

Definition pathExists (filePath : string) (files : gmap string string)
  : Completion bool * gmap string string :=
  (Normal (match files !! filePath with Some _ => true | None => false end), files).

Definition writeFile (filePath text : string) (files : gmap string string)
  : Completion unit * gmap string string :=
  (Normal (), <[filePath := text]> files).

Definition unlink (filePath : string) (files : gmap string string)
  : Completion unit * gmap string string :=
  match files !! filePath with
  | Some _ => (Normal (), base.delete filePath files)
  | None =>
      (Throw (Error ("ENOENT: no such file or directory, unlink '" +:+ filePath +:+ "'")),
       files)
  end.

(** A dynamic [import] that fails, as it does on the text of that module,
    and one that resolves to a given module. *)
Definition failingImport (filePath : string) (files : gmap string string)
  : Completion FsStoreStorageAdapter.JsModule * gmap string string :=
  (Throw (Error "SyntaxError: Unexpected end of input"), files).

Definition importOf (m : FsStoreStorageAdapter.JsModule)
    (filePath : string) (files : gmap string string)
  : Completion FsStoreStorageAdapter.JsModule * gmap string string :=
  (Normal m, files).

(** The file system adapter over them; [flatString] gives the same text. *)
Definition fsAdapter
  : StoreStorageAdapter FsStoreStorageAdapter.t (gmap string string) :=
  FsStoreStorageAdapter.adapter pathExists failingImport writeFile (λ text, text) unlink.

Definition fsStore (readonly validate : bool) : MeshStore FsStoreStorageAdapter.t :=
  {| identifier := "/out";
     storage := {| FsStoreStorageAdapter.moduleExtension := FsStoreStorageAdapter.mjs |};
     flags := {| StoreFlags.readonly := readonly; StoreFlags.validate := validate |} |}.

(** Three changes of a schema, one of each level. *)
Definition changes : list Change :=
  [ {| criticality_level := CriticalityLevel.Breaking;
       change_message := "Field 'a' was removed" |};
    {| criticality_level := CriticalityLevel.NonBreaking;
       change_message := "Field 'b' was added" |};
    {| criticality_level := CriticalityLevel.Dangerous;
       change_message := "Enum value 'C' was added" |} ].

End Scenario.

(** ** [join] on some arguments *)

Example join_examples :
  Path.join "" "" = "." ∧ Path.join "/" ".." = "/" ∧ Path.join " " "foo" = " /foo" ∧
  Path.join " " "." = " " ∧ Path.join " " "/" = " /" ∧ Path.join " " "" = " " ∧
  Path.join "" "/foo" = "/foo" ∧ Path.join "foo" "/bar" = "foo/bar" ∧
  Path.join "/" "/foo" = "/foo" ∧ Path.join "/" "//foo" = "/foo" ∧
  Path.join "/" "." = "/" ∧ Path.join "/." "" = "/" ∧ Path.join "." "./" = "./" ∧
  Path.join "" "." = "." ∧ Path.join "foo" "" = "foo" ∧ Path.join "foo/" "" = "foo/" ∧
  Path.join "./" ".." = ".." ∧ Path.join ".." ".." = "../.." ∧
  Path.join "" "k" = "k" ∧ Path.join ".mesh" "sources/x" = ".mesh/sources/x" ∧
  Path.join "a/" "/k" = "a/k" ∧ Path.join "a" "../b/./c/" = "b/c/" ∧
  Path.join "a" ".." = "." ∧ Path.join "a/" "../" = "./" ∧
  Path.join "/a/b" "../../../c" = "/c" ∧ Path.join "a/.../b" "" = "a/.../b" ∧
  Path.join "../a" "../../k" = "../../k".
Proof. vm_compute. repeat split. Qed.

(** ** Reasoning about runs *)

(** Case analysis on the run that the goal inspects first. *)
Ltac destruct_run :=
  match goal with
  | |- context [match ?m ?σ with _ => _ end] =>
      let r := fresh "r" in
      let σ' := fresh "σ" in
      let calls := fresh "calls" in
      destruct (m σ) as [[[r|r] σ'] calls]
  end.

Lemma validations_app (calls1 calls2 : list Call) :
  validations (calls1 ++ calls2) = validations calls1 + validations calls2.
Proof. unfold validations. by rewrite List.filter_app, length_app. Qed.

Lemma validations_cons (c : Call) (calls : list Call) :
  validations (c :: calls) = (if isValidate c then 1 else 0) + validations calls.
Proof. unfold validations. simpl. by destruct (isValidate c). Qed.

Lemma validations_nil : validations [] = 0.
Proof. reflexivity. Qed.

Create Rewrite HintDb validations.
#[export] Hint Rewrite validations_app validations_cons validations_nil : validations.

Ltac count_validations :=
  simpl in *; autorewrite with validations in *; simpl in *; lia.

(** A property of every call of a list that is given by its parts. *)
Ltac each_call :=
  repeat first [apply Forall_nil_2 | apply Forall_cons_2 | apply Forall_app_2];
  try done.

Section Runs.
Context {A W : Type} `{StoreStorageAdapter A W}.
Variable p : StoreProxy A.

Lemma bind_run {T U} (m : M W T) (f : T → M W U) σ :
  (m ≫= f) σ =
  match m σ with
  | (Normal x, σ1, calls1) =>
      let '(r, σ2, calls2) := f x σ1 in (r, σ2, calls1 ++ calls2)
  | (Throw e, σ1, calls1) => (Throw e, σ1, calls1)
  end.
Proof. reflexivity. Qed.

(** [ensureValueCached] on a slot that is loaded: nothing happens. *)
Lemma ensureValueCached_cached σ :
  isValueCached σ = true →
  StoreProxy.ensureValueCached p σ = (Normal (), σ, []).
Proof.
  intros Hc. unfold StoreProxy.ensureValueCached.
  rewrite bind_run. simpl. by rewrite Hc.
Qed.

(** [ensureValueCached] on a slot that is not loaded: [exists], then [read]
    when the entry exists; the flag is set when neither of them throws. *)
Lemma ensureValueCached_uncached σ :
  isValueCached σ = false →
  StoreProxy.ensureValueCached p σ =
  match storage_exists (storage (this p)) (path p) (medium σ) with
  | (Throw e, w) =>
      (Throw e, {| value := value σ; isValueCached := false; medium := w |},
       [StorageExists (path p)])
  | (Normal false, w) =>
      (Normal (), {| value := value σ; isValueCached := true; medium := w |},
       [StorageExists (path p)])
  | (Normal true, w) =>
      match storage_read (storage (this p)) (path p) (options p) w with
      | (Throw e, w') =>
          (Throw e, {| value := value σ; isValueCached := false; medium := w' |},
           [StorageExists (path p); StorageRead (path p)])
      | (Normal v, w') =>
          (Normal (), {| value := v; isValueCached := true; medium := w' |},
           [StorageExists (path p); StorageRead (path p)])
      end
  end.
Proof.
  intros Hc. unfold StoreProxy.ensureValueCached.
  rewrite bind_run. simpl. rewrite Hc. simpl.
  unfold mbind, M_bind, emit, onStorage, setValue, setIsValueCached, mret, M_ret.
  simpl.
  destruct (storage_exists _ _ _) as [[[]|e] w]; simpl; rewrite ?Hc; try done.
  destruct (storage_read _ _ _ _) as [[v|e] w']; simpl; by rewrite ?Hc.
Qed.

(** What every run of [ensureValueCached] satisfies. *)
Lemma ensureValueCached_run σ r σ1 calls :
  StoreProxy.ensureValueCached p σ = (r, σ1, calls) →
  Forall (λ c, c = StorageExists (path p) ∨ c = StorageRead (path p)) calls ∧
  (isValueCached σ = true → isValueCached σ1 = true) ∧
  (r = Normal () → isValueCached σ1 = true) ∧
  (isValueCached σ1 = false → value σ1 = value σ).
Proof.
  destruct (isValueCached σ) eqn:Hc.
  - rewrite ensureValueCached_cached by done. intros [= <- <- <-].
    by rewrite Hc.
  - rewrite ensureValueCached_uncached by done.
    destruct (storage_exists _ _ _) as [[[]|e] w];
      [destruct (storage_read _ _ _ _) as [[v|e] w']|..];
      intros [= <- <- <-]; simpl; repeat split; auto; try done.
Qed.

Lemma ensureValueCached_medium `{!QueriesPreserveStorage A W} σ :
  medium (StoreProxy.ensureValueCached p σ).1.2 = medium σ.
Proof.
  destruct (isValueCached σ) eqn:Hc.
  - by rewrite ensureValueCached_cached.
  - rewrite ensureValueCached_uncached by done.
    pose proof (storage_exists_preserves (storage (this p)) (path p) (medium σ)) as He.
    destruct (storage_exists _ _ _) as [[[]|e] w]; simpl in *; subst; try done.
    pose proof (storage_read_preserves (storage (this p)) (path p) (options p) (medium σ)) as Hr.
    by destruct (storage_read _ _ _ _) as [[v|e] w']; simpl in *; subst.
Qed.

Lemma doValidation_medium `{!QueriesPreserveStorage A W} newValue σ :
  medium (StoreProxy.doValidation p newValue σ).1.2 = medium σ.
Proof.
  unfold StoreProxy.doValidation. rewrite bind_run.
  pose proof (ensureValueCached_medium σ) as Hm.
  destruct (StoreProxy.ensureValueCached p σ) as [[[[]|e] σ1] calls]; [|done].
  rewrite bind_run. simpl in *.
  destruct (truthy (value σ1) && truthy newValue); simpl; [|done].
  rewrite bind_run. simpl. by destruct (validate _ _ _ _).
Qed.

Lemma doValidation_run newValue σ :
  StoreProxy.doValidation p newValue σ =
  match StoreProxy.ensureValueCached p σ with
  | (Throw e, σ1, calls) => (Throw e, σ1, calls)
  | (Normal _, σ1, calls) =>
      if truthy (value σ1) && truthy newValue then
        (match validate (options p) (value σ1) newValue (id p) with
         | Normal _ => Normal ()
         | Throw e => Throw (ValidationError (StoreProxy.validationMessage p e))
         end, σ1, calls ++ [OptionsValidate (value σ1) newValue (id p)])
      else (Normal (), σ1, calls)
  end.
Proof.
  unfold StoreProxy.doValidation. rewrite bind_run.
  destruct (StoreProxy.ensureValueCached p σ) as [[[[]|e] σ1] calls]; [|done].
  rewrite bind_run. simpl.
  destruct (truthy (value σ1) && truthy newValue); simpl.
  - rewrite bind_run. simpl. by destruct (validate _ _ _ _).
  - by rewrite app_nil_r.
Qed.

Lemma set_run newValue σ :
  StoreProxy.set p newValue σ =
  if StoreProxy.readonly p then
    (Throw (ReadonlyStoreError (StoreProxy.readonlyMessage p)), σ, [])
  else
    match (if StoreProxy.validating p then StoreProxy.doValidation p newValue
           else mret ()) σ with
    | (Throw e, σ1, calls) => (Throw e, σ1, calls)
    | (Normal _, σ1, calls) =>
        let '(r, w) := storage_write (storage (this p)) (path p) newValue
                         (options p) (medium σ1) in
        (r, {| value := newValue; isValueCached := true; medium := w |},
         calls ++ [StorageWrite (path p) newValue])
    end.
Proof.
  unfold StoreProxy.set. destruct (StoreProxy.readonly p); [done|].
  rewrite bind_run.
  destruct_run; [|done].
  unfold mbind, M_bind, mret, M_ret, emit, onStorage, setValue, setIsValueCached,
    getValue. simpl.
  by destruct (storage_write _ _ _ _ _) as [r' w].
Qed.

Lemma getWithSet_run setterFn σ :
  StoreProxy.getWithSet p setterFn σ =
  match StoreProxy.ensureValueCached p σ with
  | (Throw e, σ1, calls1) => (Throw e, σ1, calls1)
  | (Normal _, σ1, calls1) =>
      if StoreProxy.validating p || negb (truthy (value σ1)) then
        match setterFn with
        | Throw e => (Throw e, σ1, calls1 ++ [SetterFn])
        | Normal newValue =>
            match (if StoreProxy.validating p && StoreProxy.readonly p
                   then StoreProxy.doValidation p newValue else mret ()) σ1 with
            | (Throw e, σ2, calls2) => (Throw e, σ2, calls1 ++ SetterFn :: calls2)
            | (Normal _, σ2, calls2) =>
                match (if negb (StoreProxy.readonly p)
                       then StoreProxy.set p newValue else mret ()) σ2 with
                | (Throw e, σ3, calls3) =>
                    (Throw e, σ3, calls1 ++ SetterFn :: calls2 ++ calls3)
                | (Normal _, σ3, calls3) =>
                    (Normal (value σ3), σ3, calls1 ++ SetterFn :: calls2 ++ calls3)
                end
            end
        end
      else (Normal (value σ1), σ1, calls1)
  end.
Proof.
  unfold StoreProxy.getWithSet. rewrite bind_run.
  destruct (StoreProxy.ensureValueCached p σ) as [[[[]|e] σ1] calls1]; [|done].
  rewrite bind_run. simpl. rewrite bind_run.
  destruct (StoreProxy.validating p || negb (truthy (value σ1))); simpl;
    [|by rewrite !app_nil_r].
  rewrite bind_run. simpl.
  destruct setterFn as [newValue|e]; simpl; [|done].
  rewrite bind_run.
  destruct_run; simpl; [|done].
  destruct_run; simpl; rewrite ?app_nil_r; done.
Qed.

Lemma get_run σ :
  StoreProxy.get p σ =
  match StoreProxy.ensureValueCached p σ with
  | (Throw e, σ1, calls) => (Throw e, σ1, calls)
  | (Normal _, σ1, calls) => (Normal (value σ1), σ1, calls)
  end.
Proof.
  unfold StoreProxy.get. rewrite bind_run.
  destruct (StoreProxy.ensureValueCached p σ) as [[[[]|e] σ1] calls]; [|done].
  simpl. by rewrite app_nil_r.
Qed.

Lemma delete_run σ :
  StoreProxy.delete p σ =
  let '(r, w) := storage_delete (storage (this p)) (path p) (medium σ) in
  (r, {| value := value σ; isValueCached := isValueCached σ; medium := w |},
   [StorageDelete (path p)]).
Proof.
  unfold StoreProxy.delete. rewrite bind_run. simpl. unfold onStorage.
  by destruct (storage_delete _ _ _) as [r w].
Qed.

(** *** Which calls a run makes *)

Lemma ensureValueCached_calls σ :
  Forall (λ c, c = StorageExists (path p) ∨ c = StorageRead (path p))
    (StoreProxy.ensureValueCached p σ).2.
Proof.
  destruct (StoreProxy.ensureValueCached p σ) as [[r σ1] calls] eqn:E.
  by apply ensureValueCached_run in E as (? & _).
Qed.

Lemma ensureValueCached_wellAddressed σ :
  Forall (wellAddressed p) (StoreProxy.ensureValueCached p σ).2.
Proof.
  eapply Forall_impl; [apply ensureValueCached_calls|].
  by intros c [-> | ->].
Qed.

Lemma ensureValueCached_no_write σ :
  Forall (λ c, isWrite c = false) (StoreProxy.ensureValueCached p σ).2.
Proof.
  eapply Forall_impl; [apply ensureValueCached_calls|].
  by intros c [-> | ->].
Qed.

Lemma ensureValueCached_validations σ :
  validations (StoreProxy.ensureValueCached p σ).2 = 0.
Proof.
  pose proof (ensureValueCached_calls σ) as Hc.
  induction Hc as [|c calls [-> | ->] _ IH]; by rewrite ?validations_cons.
Qed.

Lemma doValidation_wellAddressed newValue σ :
  Forall (wellAddressed p) (StoreProxy.doValidation p newValue σ).2.
Proof.
  rewrite doValidation_run.
  pose proof (ensureValueCached_wellAddressed σ) as Hc.
  destruct (StoreProxy.ensureValueCached p σ) as [[[[]|e] σ1] calls]; [|done].
  destruct (truthy (value σ1) && truthy newValue) eqn:Ht; [|done].
  apply andb_true_iff in Ht as [Ho Hn]. simpl. apply Forall_app. split; [done|].
  apply Forall_singleton. simpl. auto.
Qed.

Lemma doValidation_validations newValue σ :
  validations (StoreProxy.doValidation p newValue σ).2 ≤ 1.
Proof.
  rewrite doValidation_run.
  pose proof (ensureValueCached_validations σ) as Hc.
  destruct (StoreProxy.ensureValueCached p σ) as [[[[]|e] σ1] calls];
    [|count_validations].
  destruct (truthy (value σ1) && truthy newValue); count_validations.
Qed.

Lemma set_wellAddressed newValue σ :
  Forall (wellAddressed p) (StoreProxy.set p newValue σ).2.
Proof.
  rewrite set_run. destruct (StoreProxy.readonly p); [done|].
  assert (Forall (wellAddressed p)
            ((if StoreProxy.validating p then StoreProxy.doValidation p newValue
              else mret ()) σ).2) as Hc.
  { destruct (StoreProxy.validating p); [apply doValidation_wellAddressed|done]. }
  destruct_run; [|done].
  destruct (storage_write _ _ _ _ _) as [r' w]. simpl in *.
  apply Forall_app. split; [done|]. by apply Forall_singleton.
Qed.

Lemma set_validations newValue σ :
  validations (StoreProxy.set p newValue σ).2 ≤ 1.
Proof.
  rewrite set_run. destruct (StoreProxy.readonly p); [count_validations|].
  assert (validations
            ((if StoreProxy.validating p then StoreProxy.doValidation p newValue
              else mret ()) σ).2 ≤ 1) as Hc.
  { destruct (StoreProxy.validating p);
      [apply doValidation_validations|count_validations]. }
  destruct_run; [|done].
  destruct (storage_write _ _ _ _ _) as [r' w]. count_validations.
Qed.

Lemma getWithSet_wellAddressed setterFn σ :
  Forall (wellAddressed p) (StoreProxy.getWithSet p setterFn σ).2.
Proof.
  rewrite getWithSet_run.
  pose proof (ensureValueCached_wellAddressed σ) as Hc.
  destruct (StoreProxy.ensureValueCached p σ) as [[[[]|e] σ1] calls1]; [|done].
  simpl in Hc.
  destruct (StoreProxy.validating p || negb (truthy (value σ1))); [|done].
  destruct setterFn as [newValue|e].
  2:{ simpl. apply Forall_app. split; [done|]. by apply Forall_singleton. }
  assert (Forall (wellAddressed p)
            ((if StoreProxy.validating p && StoreProxy.readonly p
              then StoreProxy.doValidation p newValue else mret ()) σ1).2) as Hv.
  { destruct (_ && _); [apply doValidation_wellAddressed|done]. }
  destruct_run; simpl in Hv.
  2:{ simpl. apply Forall_app. split; [done|]. by apply Forall_cons. }
  assert (Forall (wellAddressed p)
            ((if negb (StoreProxy.readonly p)
              then StoreProxy.set p newValue else mret ()) σ0).2) as Hs.
  { destruct (negb _); [apply set_wellAddressed|done]. }
  destruct_run; simpl in *;
    (apply Forall_app; split; [done|]; apply Forall_cons; split; [done|];
     by apply Forall_app).
Qed.

Lemma getWithSet_validations setterFn σ :
  validations (StoreProxy.getWithSet p setterFn σ).2 ≤ 1.
Proof.
  rewrite getWithSet_run.
  pose proof (ensureValueCached_validations σ) as Hc.
  destruct (StoreProxy.ensureValueCached p σ) as [[[[]|e] σ1] calls1];
    [|count_validations].
  destruct (StoreProxy.validating p || negb (truthy (value σ1)));
    [|count_validations].
  destruct setterFn as [newValue|e]; [|count_validations].
  pose proof (doValidation_validations newValue σ1) as Hv.
  destruct (StoreProxy.readonly p) eqn:Hro; rewrite ?andb_true_r, ?andb_false_r; simpl.
  - destruct (StoreProxy.validating p); simpl; [|count_validations].
    destruct (StoreProxy.doValidation p newValue σ1) as [[[[]|e] σ2] calls2];
      count_validations.
  - pose proof (set_validations newValue σ1) as Hs.
    destruct (StoreProxy.set p newValue σ1) as [[[[]|e] σ2] calls2];
      count_validations.
Qed.

Lemma perform_wellAddressed op σ :
  Forall (wellAddressed p) (perform p op σ).2.
Proof.
  destruct op as [|newValue|setterFn|]; simpl.
  - rewrite get_run. pose proof (ensureValueCached_wellAddressed σ) as Hc.
    by destruct (StoreProxy.ensureValueCached p σ) as [[[[]|e] σ1] calls].
  - rewrite bind_run. pose proof (set_wellAddressed newValue σ) as Hc.
    destruct (StoreProxy.set p newValue σ) as [[[[]|e] σ1] calls]; simpl in *;
      by rewrite ?app_nil_r.
  - apply getWithSet_wellAddressed.
  - rewrite bind_run, delete_run.
    by destruct (storage_delete _ _ _) as [[[]|e] w]; simpl; apply Forall_singleton.
Qed.

(** *** The flag [isValueCached] is never reset *)

Lemma doValidation_cached newValue σ :
  isValueCached σ = true →
  isValueCached (StoreProxy.doValidation p newValue σ).1.2 = true.
Proof.
  intros Hc. rewrite doValidation_run, ensureValueCached_cached by done.
  by destruct (truthy (value σ) && truthy newValue).
Qed.

Lemma set_cached newValue σ :
  isValueCached σ = true →
  isValueCached (StoreProxy.set p newValue σ).1.2 = true.
Proof.
  intros Hc. rewrite set_run. destruct (StoreProxy.readonly p); [done|].
  assert (isValueCached
            ((if StoreProxy.validating p then StoreProxy.doValidation p newValue
              else mret ()) σ).1.2 = true) as Hv.
  { destruct (StoreProxy.validating p); [by apply doValidation_cached|done]. }
  destruct_run; [|done].
  by destruct (storage_write _ _ _ _ _) as [r' w].
Qed.

Lemma getWithSet_cached setterFn σ :
  isValueCached σ = true →
  isValueCached (StoreProxy.getWithSet p setterFn σ).1.2 = true.
Proof.
  intros Hc. rewrite getWithSet_run, ensureValueCached_cached by done.
  destruct (StoreProxy.validating p || negb (truthy (value σ))); [|done].
  destruct setterFn as [newValue|e]; [|done].
  assert (isValueCached
            ((if StoreProxy.validating p && StoreProxy.readonly p
              then StoreProxy.doValidation p newValue else mret ()) σ).1.2 = true)
    as Hv.
  { destruct (_ && _); [by apply doValidation_cached|done]. }
  destruct_run; simpl in Hv; [|done].
  assert (isValueCached
            ((if negb (StoreProxy.readonly p)
              then StoreProxy.set p newValue else mret ()) σ0).1.2 = true) as Hs.
  { destruct (negb _); [by apply set_cached|done]. }
  by destruct_run.
Qed.

Lemma perform_cached op σ :
  isValueCached σ = true → isValueCached (perform p op σ).1.2 = true.
Proof.
  intros Hc. destruct op as [|newValue|setterFn|]; simpl.
  - by rewrite get_run, ensureValueCached_cached.
  - rewrite bind_run. pose proof (set_cached newValue σ Hc) as Hs.
    by destruct (StoreProxy.set p newValue σ) as [[[[]|e] σ1] calls].
  - by apply getWithSet_cached.
  - rewrite bind_run, delete_run.
    by destruct (storage_delete _ _ _) as [[[]|e] w].
Qed.

End Runs.
(** ** Strings *)

Lemma append_cons (x : ascii) (a b : string) :
  String x a +:+ b = String x (a +:+ b).
Proof. reflexivity. Qed.

Lemma append_assoc (a b c : string) : (a +:+ b) +:+ c = a +:+ b +:+ c.
Proof. induction a as [|x a IH]; [done|]. by rewrite !append_cons, IH. Qed.

Lemma append_empty_r (a : string) : a +:+ "" = a.
Proof. induction a as [|x a IH]; [done|]. by rewrite append_cons, IH. Qed.

Lemma append_length (a b : string) :
  String.length (a +:+ b) = String.length a + String.length b.
Proof. induction a as [|x a IH]; [done|]. rewrite append_cons. simpl. by rewrite IH. Qed.

Lemma append_empty (a b : string) : a +:+ b = "" → a = "" ∧ b = "".
Proof. by destruct a. Qed.

(** Cancelling a common end. *)
Lemma append_inv_tail (a b c : string) : a +:+ c = b +:+ c → a = b.
Proof.
  revert b. induction a as [|x a IH]; intros [|y b] Heq; [done|..].
  - apply (f_equal String.length) in Heq.
    rewrite !append_length in Heq. simpl in Heq. lia.
  - apply (f_equal String.length) in Heq.
    rewrite !append_length in Heq. simpl in Heq. lia.
  - rewrite !append_cons in Heq. injection Heq as -> Heq. f_equal. by apply IH.
Qed.

Lemma includes_intro (before needle after : string) :
  includes needle (before +:+ needle +:+ after).
Proof. by exists before, after. Qed.

(** ** Paths *)

Module PathFacts.
Import Path.

Lemma segments_nonempty (path : string) : segments path ≠ [].
Proof.
  destruct path as [|c rest]; [done|]. simpl.
  destruct (isPathSeparator c); [done|]. by destruct (segments rest).
Qed.

Lemma segments_no_separator (path : string) :
  Forall (λ seg, hasSeparator seg = false) (segments path).
Proof.
  induction path as [|c rest IH]; simpl; [by repeat constructor|].
  destruct (isPathSeparator c) eqn:Hc; [by constructor|].
  pose proof (segments_nonempty rest) as Hne.
  destruct (segments rest) as [|seg segs]; [done|].
  apply Forall_cons in IH as [Hseg Hsegs]. constructor; [|done].
  simpl. by rewrite Hc.
Qed.

(** The segments of [a/b] are those of [a], then those of [b]. *)
Lemma segments_append (a b : string) :
  segments (a +:+ "/" +:+ b) = segments a ++ segments b.
Proof.
  induction a as [|c a IH]; [done|].
  rewrite append_cons. simpl. rewrite IH.
  destruct (isPathSeparator c); [done|].
  pose proof (segments_nonempty a). by destruct (segments a).
Qed.

Lemma segments_one (seg : string) :
  hasSeparator seg = false → segments seg = [seg].
Proof.
  induction seg as [|c seg IH]; [done|]. simpl.
  intros [Hc Hseg]%orb_false_iff. by rewrite Hc, IH.
Qed.

Lemma joinSegments_cons (seg : string) (segs : list string) :
  segs ≠ [] → joinSegments (seg :: segs) = seg +:+ "/" +:+ joinSegments segs.
Proof. by destruct segs. Qed.

(** Splitting and joining are inverse to each other. *)
Lemma joinSegments_segments (path : string) : joinSegments (segments path) = path.
Proof.
  induction path as [|c rest IH]; [done|]. simpl.
  pose proof (segments_nonempty rest) as Hne.
  destruct (isPathSeparator c) eqn:Hc.
  - rewrite joinSegments_cons, IH by done.
    unfold isPathSeparator in Hc. by destruct (decide (c = slash)) as [->|].
  - destruct (segments rest) as [|seg segs]; [done|].
    rewrite <- IH. destruct segs as [|seg' segs]; [done|].
    by rewrite (joinSegments_cons (String c seg)), (joinSegments_cons seg).
Qed.

Lemma segments_joinSegments (segs : list string) :
  segs ≠ [] → Forall (λ seg, hasSeparator seg = false) segs →
  segments (joinSegments segs) = segs.
Proof.
  induction segs as [|seg segs IH]; [done|]. intros _ [Hseg Hsegs]%Forall_cons.
  destruct segs as [|seg' segs]; [by apply segments_one|].
  rewrite joinSegments_cons, segments_append by done.
  by rewrite segments_one, IH.
Qed.

Lemma joinSegments_app (before after : list string) :
  after ≠ [] →
  joinSegments (before ++ after) = directory before +:+ joinSegments after.
Proof.
  intros Hne. induction before as [|seg before IH]; [done|].
  simpl app. rewrite joinSegments_cons by by destruct before.
  rewrite IH. unfold directory. destruct before as [|seg' before].
  - by rewrite append_assoc.
  - by rewrite (joinSegments_cons seg), !append_assoc.
Qed.

Lemma isAbsolute_append (a b : string) :
  a ≠ "" → isAbsolute (a +:+ b) = isAbsolute a.
Proof. by destruct a. Qed.

Lemma trailingSeparator_append (a b : string) :
  b ≠ "" → trailingSeparator (a +:+ b) = trailingSeparator b.
Proof.
  intros Hb. induction a as [|c a IH]; [done|].
  rewrite append_cons. simpl. rewrite IH.
  destruct (a +:+ b) eqn:E; [|done]. by apply append_empty in E as [_ ?].
Qed.

(** A path that ends with a separator has an empty last segment. *)
Lemma trailingSeparator_segments (path : string) :
  trailingSeparator path = true → ∃ segs, segments path = segs ++ [""].
Proof.
  induction path as [|c rest IH]; [done|]. simpl.
  destruct rest as [|c' rest'].
  - intros ->. by exists [""].
  - intros [segs Hsegs]%IH. rewrite Hsegs.
    destruct (isPathSeparator c); [by exists ("" :: segs)|].
    destruct segs as [|seg segs]; simpl.
    + apply (f_equal joinSegments) in Hsegs.
      by rewrite joinSegments_segments in Hsegs.
    + by exists (String c seg :: segs).
Qed.

Lemma plainSegment_spec (seg : string) :
  plainSegment seg = true ↔ seg ≠ "" ∧ seg ≠ "." ∧ seg ≠ "..".
Proof.
  unfold plainSegment. rewrite !andb_true_iff, !negb_true_iff, !bool_decide_eq_false.
  tauto.
Qed.

Lemma plainPath_segments (path : string) :
  plainPath path = true ↔ Forall (λ seg, plainSegment seg = true) (segments path).
Proof. unfold plainPath. by rewrite forallb_forall, List.Forall_forall. Qed.

Lemma plainPath_nonempty (path : string) : plainPath path = true → path ≠ "".
Proof. by intros Hp ->. Qed.

Lemma plainPath_relative (path : string) :
  plainPath path = true → isAbsolute path = false.
Proof.
  destruct path as [|c rest]; [done|]. unfold plainPath. simpl.
  by destruct (isPathSeparator c).
Qed.

Lemma plainPath_no_trailingSeparator (path : string) :
  plainPath path = true → trailingSeparator path = false.
Proof.
  intros Hp%plainPath_segments. destruct (trailingSeparator path) eqn:Ht; [|done].
  apply trailingSeparator_segments in Ht as [segs Hsegs].
  rewrite Hsegs in Hp. by apply Forall_app in Hp as [_ [? _]%Forall_cons].
Qed.

Lemma plainPath_append (a b : string) :
  plainPath a = true → plainPath b = true → plainPath (a +:+ "/" +:+ b) = true.
Proof.
  rewrite !plainPath_segments, segments_append. intros. by apply Forall_app.
Qed.

(** *** Normalising *)

Lemma normalizeSegment_plain (allowAboveRoot : bool) (res : list string) (seg : string) :
  plainSegment seg = true → normalizeSegment allowAboveRoot res seg = seg :: res.
Proof.
  intros (? & ? & ?)%plainSegment_spec. unfold normalizeSegment.
  by repeat case_decide.
Qed.

Lemma normalizeSegments_app (allowAboveRoot : bool) (res segs1 segs2 : list string) :
  normalizeSegments allowAboveRoot res (segs1 ++ segs2) =
  normalizeSegments allowAboveRoot (normalizeSegments allowAboveRoot res segs1) segs2.
Proof. apply fold_left_app. Qed.

Lemma normalizeSegments_plain (allowAboveRoot : bool) (res segs : list string) :
  Forall (λ seg, plainSegment seg = true) segs →
  normalizeSegments allowAboveRoot res segs = rev segs ++ res.
Proof.
  intros Hsegs. revert res.
  induction Hsegs as [|seg segs Hseg _ IH]; intros res; [done|].
  change (normalizeSegments allowAboveRoot res (seg :: segs))
    with (normalizeSegments allowAboveRoot (normalizeSegment allowAboveRoot res seg) segs).
  rewrite normalizeSegment_plain, IH by done. simpl. by rewrite <- app_assoc.
Qed.

Lemma normalForm_step (allowAboveRoot : bool) (res : list string) (seg : string) :
  normalForm allowAboveRoot res → hasSeparator seg = false →
  normalForm allowAboveRoot (normalizeSegment allowAboveRoot res seg).
Proof.
  intros Hres Hseg. unfold normalizeSegment.
  destruct (decide (seg = "")); [done|]. destruct (decide (seg = ".")); [done|].
  destruct (decide (seg = "..")) as [->|]; [|done].
  destruct res as [|last before].
  - by destruct allowAboveRoot.
  - destruct (decide (last = "..")) as [->|].
    + destruct allowAboveRoot; [|done]. by split_and!.
    + by destruct Hres as (_ & _ & _ & _ & ?).
Qed.

Lemma normalForm_normalizeSegments (allowAboveRoot : bool) (res segs : list string) :
  normalForm allowAboveRoot res →
  Forall (λ seg, hasSeparator seg = false) segs →
  normalForm allowAboveRoot (normalizeSegments allowAboveRoot res segs).
Proof.
  intros Hres Hsegs. revert res Hres.
  induction Hsegs as [|seg segs Hseg _ IH]; intros res Hres; [done|].
  change (normalizeSegments allowAboveRoot res (seg :: segs))
    with (normalizeSegments allowAboveRoot (normalizeSegment allowAboveRoot res seg) segs).
  apply IH. by apply normalForm_step.
Qed.

Lemma normalForm_resolved (path : string) :
  normalForm (negb (isAbsolute path)) (resolved path).
Proof.
  apply normalForm_normalizeSegments; [done|apply segments_no_separator].
Qed.

Lemma normalForm_no_separator (allowAboveRoot : bool) (res : list string) :
  normalForm allowAboveRoot res →
  Forall (λ seg, hasSeparator seg = false) res ∧ Forall (λ seg, seg ≠ "") res.
Proof.
  induction res as [|seg rest IH]; [done|].
  intros (? & _ & ? & _ & [??]%IH). split; by constructor.
Qed.

(** Normalising what is normalised changes nothing. *)
Lemma normalizeSegments_normalForm (allowAboveRoot : bool) (res : list string) :
  normalForm allowAboveRoot res →
  normalizeSegments allowAboveRoot [] (rev res) = res.
Proof.
  induction res as [|seg rest IH]; [done|].
  intros (Hne & Hdot & _ & Hup & Hrest). simpl.
  rewrite normalizeSegments_app, IH by done. simpl. unfold normalizeSegment.
  destruct (decide (seg = "")); [done|]. destruct (decide (seg = ".")); [done|].
  destruct (decide (seg = "..")) as [->|]; [|done].
  destruct (Hup eq_refl) as [-> Hbelow].
  destruct rest as [|below rest]; [done|]. by rewrite Hbelow.
Qed.

Lemma isAbsolute_joinSegments (seg : string) (segs : list string) :
  seg ≠ "" → hasSeparator seg = false → isAbsolute (joinSegments (seg :: segs)) = false.
Proof.
  intros Hne Hseg. destruct seg as [|c seg]; [done|].
  simpl in Hseg. apply orb_false_iff in Hseg as [Hc _].
  destruct segs as [|seg' segs]; [done|]. by rewrite joinSegments_cons.
Qed.

Lemma joinSegments_empty (segs : list string) :
  Forall (λ seg, seg ≠ "") segs → joinSegments segs = "" → segs = [].
Proof.
  destruct segs as [|seg segs]; [done|]. intros [Hne _]%Forall_cons.
  destruct segs as [|seg' segs]; [done|].
  rewrite joinSegments_cons by done. by intros [? _]%append_empty.
Qed.

(** *** [join] *)

Lemma normalize_nonempty (path : string) :
  path ≠ "" →
  normalize path =
    if decide (joinSegments (rev (resolved path)) = "") then
      (if isAbsolute path then "/" else if trailingSeparator path then "./" else ".")
    else
      (if isAbsolute path then "/" else "") +:+ joinSegments (rev (resolved path)) +:+
      (if trailingSeparator path then "/" else "").
Proof. intros Hne. unfold normalize. by destruct (decide (path = "")). Qed.

Lemma join_empty_l (b : string) : b ≠ "" → join "" b = normalize b.
Proof.
  intros Hb. unfold join. rewrite filter_cons, filter_cons, filter_nil.
  destruct (decide ("" ≠ "")); [done|]. by destruct (decide (b ≠ "")).
Qed.

Lemma join_empty_r (a : string) : a ≠ "" → join a "" = normalize a.
Proof.
  intros Ha. unfold join. rewrite filter_cons, filter_cons, filter_nil.
  destruct (decide ("" ≠ "")); [done|]. by destruct (decide (a ≠ "")).
Qed.

Lemma join_nonempty (a b : string) :
  a ≠ "" → b ≠ "" → join a b = normalize (a +:+ "/" +:+ b).
Proof.
  intros Ha Hb. unfold join. rewrite filter_cons, filter_cons, filter_nil.
  destruct (decide (a ≠ "")); [|done]. by destruct (decide (b ≠ "")).
Qed.

Lemma resolved_append (a b : string) :
  a ≠ "" → plainPath b = true →
  resolved (a +:+ "/" +:+ b) = rev (segments b) ++ resolved a.
Proof.
  intros Ha Hb%plainPath_segments. unfold resolved.
  rewrite isAbsolute_append, segments_append, normalizeSegments_app by done.
  by apply normalizeSegments_plain.
Qed.

Lemma resolved_plain (b : string) :
  plainPath b = true → resolved b = rev (segments b).
Proof.
  intros Hb. unfold resolved.
  rewrite normalizeSegments_plain by by apply plainPath_segments.
  apply app_nil_r.
Qed.

(** With a plain path in second place, [join] puts the normalised first
    path in front of it. *)
Lemma join_plain (a b : string) :
  plainPath b = true → join a b = base a +:+ b.
Proof.
  intros Hb. pose proof (plainPath_nonempty _ Hb) as Hne.
  pose proof (segments_nonempty b) as Hsegs.
  destruct (decide (a = "")) as [->|Ha].
  - rewrite join_empty_l, normalize_nonempty by done.
    rewrite resolved_plain, rev_involutive, joinSegments_segments by done.
    rewrite plainPath_relative, plainPath_no_trailingSeparator by done.
    destruct (decide (b = "")); [done|]. unfold base. simpl.
    by rewrite append_empty_r.
  - assert (a +:+ "/" +:+ b ≠ "") as Hne' by by destruct a.
    rewrite join_nonempty, normalize_nonempty by done.
    rewrite resolved_append, rev_app_distr, rev_involutive by done.
    rewrite joinSegments_app, joinSegments_segments by done.
    rewrite isAbsolute_append by done.
    rewrite <- append_assoc, trailingSeparator_append by done.
    rewrite plainPath_no_trailingSeparator by done.
    destruct (decide (_ = "")) as [[_ ?]%append_empty|]; [done|].
    unfold base. by rewrite append_empty_r, !append_assoc.
Qed.

Lemma base_plain (a : string) : plainPath a = true → base a = a +:+ "/".
Proof.
  intros Ha. unfold base.
  rewrite plainPath_relative, resolved_plain, rev_involutive by done.
  unfold directory. pose proof (segments_nonempty a).
  destruct (segments a) eqn:E; [done|]. by rewrite <- E, joinSegments_segments.
Qed.

(** The normalised first path, with a plain path after it, is again
    normalised: its own [base] is itself, with a separator. *)
Lemma base_base (a b : string) :
  plainPath b = true → base (base a +:+ b) = base a +:+ b +:+ "/".
Proof.
  intros Hb. pose proof (plainPath_nonempty _ Hb) as Hne.
  pose proof (segments_nonempty b) as Hsegs.
  pose proof (normalForm_resolved a) as Hnf.
  pose proof (normalForm_no_separator _ _ Hnf) as [Hsep Hnonempty].
  set (whole := rev (resolved a) ++ segments b).
  assert (whole ≠ []) as Hwhole by (unfold whole; by destruct (rev (resolved a)), (segments b)).
  assert (Forall (λ seg, hasSeparator seg = false) whole) as Hwsep.
  { apply Forall_app. split; [by apply Forall_rev|apply segments_no_separator]. }
  assert (base a +:+ b =
          (if isAbsolute a then "/" else "") +:+ joinSegments whole) as Hrender.
  { unfold base, whole. rewrite joinSegments_app, joinSegments_segments by done.
    by rewrite append_assoc. }
  assert (isAbsolute (base a +:+ b) = isAbsolute a) as Habs.
  { rewrite Hrender. destruct (isAbsolute a); [done|].
    change ("" +:+ joinSegments whole) with (joinSegments whole).
    unfold whole. destruct (rev (resolved a)) as [|seg segs] eqn:E.
    - simpl. rewrite joinSegments_segments. by apply plainPath_relative.
    - simpl. apply Forall_rev in Hsep, Hnonempty. rewrite E in Hsep, Hnonempty.
      apply Forall_cons in Hsep as [? _], Hnonempty as [? _].
      by apply isAbsolute_joinSegments. }
  assert (resolved (base a +:+ b) = rev (segments b) ++ resolved a) as Hres.
  { unfold resolved at 1. rewrite Habs, Hrender.
    assert (normalizeSegments (negb (isAbsolute a)) []
              (segments ((if isAbsolute a then "/" else "") +:+ joinSegments whole)) =
            normalizeSegments (negb (isAbsolute a)) [] whole) as ->.
    { destruct (isAbsolute a).
      - change (segments ("/" +:+ joinSegments whole))
          with ("" :: segments (joinSegments whole)).
        by rewrite segments_joinSegments.
      - change ("" +:+ joinSegments whole) with (joinSegments whole).
        by rewrite segments_joinSegments. }
    unfold whole. rewrite normalizeSegments_app, normalizeSegments_normalForm by done.
    apply normalizeSegments_plain. by apply plainPath_segments. }
  assert (base (base a +:+ b) =
          (if isAbsolute a then "/" else "") +:+ joinSegments whole +:+ "/") as ->.
  { change (base (base a +:+ b))
      with ((if isAbsolute (base a +:+ b) then "/" else "") +:+
            directory (rev (resolved (base a +:+ b)))).
    rewrite Habs, Hres, rev_app_distr, rev_involutive.
    fold whole. unfold directory. by destruct whole. }
  by rewrite <- (append_assoc (base a)), Hrender, append_assoc.
Qed.

(** Nesting two plain paths under a path is joining them first. *)
Lemma join_join_plain (x a b : string) :
  plainPath a = true → plainPath b = true →
  join (join x a) b = join x (join a b).
Proof.
  intros Ha Hb.
  rewrite (join_plain a b), base_plain, append_assoc by done.
  rewrite (join_plain x (a +:+ "/" +:+ b)) by by apply plainPath_append.
  by rewrite (join_plain x a), (join_plain _ b), base_base, !append_assoc.
Qed.

Lemma join_join_inj (x a b c : string) :
  plainPath a = true → plainPath b = true → plainPath c = true →
  join (join x a) c = join (join x b) c → a = b.
Proof.
  intros Ha Hb Hc.
  rewrite (join_plain x a), (join_plain x b), !(join_plain _ c), !base_base by done.
  rewrite !append_assoc. intros Heq%(inj (String.app (base x))).
  by apply append_inv_tail in Heq.
Qed.

Lemma base_empty (a : string) :
  base a = "" ↔ isAbsolute a = false ∧ resolved a = [].
Proof.
  unfold base. split.
  - intros [Habs Hdir]%append_empty. split; [by destruct (isAbsolute a)|].
    unfold directory in Hdir. destruct (rev (resolved a)) eqn:E.
    + apply (f_equal (@rev string)) in E. by rewrite rev_involutive in E.
    + by apply append_empty in Hdir as [_ ?].
  - by intros [-> ->].
Qed.

(** A path resolves to the current directory when [join], given it alone,
    answers [.] or [./]. *)
Lemma base_empty_join (a : string) :
  base a = "" ↔ join a "" = "." ∨ join a "" = "./".
Proof.
  rewrite base_empty. destruct (decide (a = "")) as [->|Ha].
  { split; [by left|done]. }
  rewrite join_empty_r, normalize_nonempty by done.
  pose proof (normalForm_resolved a) as Hnf.
  split.
  - intros [-> ->]. simpl. destruct (trailingSeparator a); auto.
  - destruct (decide (joinSegments (rev (resolved a)) = "")) as [Hempty|Hfull].
    + apply joinSegments_empty in Hempty.
      2:{ apply Forall_rev. by apply (normalForm_no_separator _ _ Hnf). }
      apply (f_equal (@rev string)) in Hempty. rewrite rev_involutive in Hempty.
      destruct (isAbsolute a); [by intros [?|?]|done].
    + intros Hdot. exfalso.
      destruct (isAbsolute a); [by destruct Hdot|].
      change ("" +:+ ?t) with t in Hdot.
      destruct (resolved a) as [|top below] eqn:E using rev_ind; [done|].
      clear IHbelow. rewrite rev_app_distr in Hdot, Hfull. simpl in Hdot, Hfull.
      assert (top ≠ "" ∧ top ≠ "." ∧ hasSeparator top = false) as (Hne & Hd & Hs).
      { pose proof (normalForm_no_separator _ _ Hnf) as [Hsep Hnon].
        rewrite Forall_forall in Hsep, Hnon.
        assert (top ∈ below ++ [top]) as Hin by (apply elem_of_app; right; by left).
        split; [auto|]. split; [|auto].
        clear -Hnf Hin. induction (below ++ [top]) as [|seg rest IH]; [by inversion Hin|].
        destruct Hnf as (_ & ? & _ & _ & ?). inversion Hin; subst; auto. }
      assert (∃ tail, joinSegments (top :: rev below) = top +:+ tail ∧
                      (tail = "" ∨ isAbsolute tail = true)) as (tail & Hj & Htail).
      { destruct (rev below) as [|seg segs].
        - exists "". split; [by rewrite append_empty_r|by left].
        - exists ("/" +:+ joinSegments (seg :: segs)). split; [|by right].
          by rewrite joinSegments_cons. }
      rewrite Hj in Hdot. rewrite append_assoc in Hdot.
      destruct top as [|c [|c' top]]; [done|..].
      * destruct Hdot as [Hdot|Hdot]; injection Hdot as -> _; done.
      * simpl in Hs. apply orb_false_iff in Hs as [_ [Hc' _]%orb_false_iff].
        destruct Hdot as [Hdot|Hdot]; [done|].
        injection Hdot as _ -> _. done.
Qed.

Lemma join_fixed (a b : string) :
  plainPath b = true →
  join a b = b ↔ (join a "" = "." ∨ join a "" = "./").
Proof.
  intros Hb. rewrite <- base_empty_join, join_plain by done. split.
  - intros Heq. by apply (append_inv_tail _ "" b).
  - by intros ->.
Qed.

End PathFacts.

(** ** The proxy *)

Section Proxy.
Context {A W : Type} `{StoreStorageAdapter A W}.
Variable s : MeshStore A.
Variable key : string.
Variable strategy : ProxyOptions.

Local Abbreviation p := (MeshStore.proxy s key strategy).

Lemma readonlyMessage_includes :
  includes key (StoreProxy.readonlyMessage p) ∧
  includes (identifier s) (StoreProxy.readonlyMessage p).
Proof.
  unfold StoreProxy.readonlyMessage. simpl. split.
  - rewrite <- (append_assoc "Unable to set value for " dquote). apply includes_intro.
  - rewrite <- !(append_assoc _ _ (identifier s +:+ _)). apply includes_intro.
Qed.

(** C2. On a store whose [readonly] flag is set, [set] throws a
    [ReadonlyStoreError] whose message includes the key of the proxy and the
    identifier of the store; it makes no call at all (so [write] is not
    invoked) and leaves the slot of the proxy and the medium as they were. *)
Theorem set_readonly_fails (v : JsValue) (σ : ProxyState W) :
  StoreFlags.readonly (flags s) = true →
  StoreProxy.set p v σ =
    (Throw (ReadonlyStoreError (StoreProxy.readonlyMessage p)), σ, []) ∧
  includes key (StoreProxy.readonlyMessage p) ∧
  includes (identifier s) (StoreProxy.readonlyMessage p).
Proof.
  intros Hro. split; [|apply readonlyMessage_includes].
  rewrite set_run. unfold StoreProxy.readonly. simpl. by rewrite Hro.
Qed.

Lemma validationMessage_includes (e : JsError) :
  includes key (StoreProxy.validationMessage p e) ∧
  includes (identifier s) (StoreProxy.validationMessage p e).
Proof.
  unfold StoreProxy.validationMessage. simpl. split.
  - rewrite <- (append_assoc "Validation failed for " dquote). apply includes_intro.
  - rewrite <- !(append_assoc _ _ (identifier s +:+ _)). apply includes_intro.
Qed.

(** C9. [delete] calls the [delete] of the adapter with the storage key of
    the proxy and ends as that call ends; no flag of the store is looked at
    (the run is the same under any flags, [readonly] included); the slot of
    the proxy is left as it was, so that a [get] after [delete] on a proxy
    that had a value loaded still returns that value, without a call. *)
Theorem delete_ignores_flags_and_cache (σ : ProxyState W) :
  let key' := Path.join (identifier s) key in
  let after := StoreProxy.delete p σ in
  after =
    ((storage_delete (storage s) key' (medium σ)).1,
     {| value := value σ; isValueCached := isValueCached σ;
        medium := (storage_delete (storage s) key' (medium σ)).2 |},
     [StorageDelete key']) ∧
  (∀ flags',
     StoreProxy.delete
       (MeshStore.proxy
          {| identifier := identifier s; storage := storage s; flags := flags' |}
          key strategy) σ = after) ∧
  (isValueCached σ = true →
   StoreProxy.get p after.1.2 = (Normal (value σ), after.1.2, [])).
Proof.
  intros key' after.
  assert (after =
    ((storage_delete (storage s) key' (medium σ)).1,
     {| value := value σ; isValueCached := isValueCached σ;
        medium := (storage_delete (storage s) key' (medium σ)).2 |},
     [StorageDelete key'])) as Hrun.
  { unfold after. rewrite delete_run. simpl. fold key'.
    by destruct (storage_delete _ _ _). }
  split; [done|]. split.
  - intros flags'. unfold after. by rewrite !delete_run.
  - intros Hc. rewrite Hrun. simpl. rewrite get_run.
    by rewrite ensureValueCached_cached.
Qed.

(** C4, amended. The first [get] on a proxy calls [exists] with the storage
    key, then [read] exactly when [exists] returned true, and nothing else;
    when this [get] returns, the slot is loaded with the value it returns.
    A [get] on a loaded slot returns the value in memory, calls nothing and
    changes nothing, whatever the flags; and no operation of the proxy
    unloads a loaded slot.  (When [exists] or [read] throws, the slot stays
    unloaded and the next [get] asks the adapter again.) *)
Theorem get_loads_at_most_once :
  (∀ σ : ProxyState W, isValueCached σ = false →
     (StoreProxy.get p σ).2 =
       StorageExists (path p) ::
       match (storage_exists (storage s) (path p) (medium σ)).1 with
       | Normal true => [StorageRead (path p)]
       | _ => []
       end ∧
     (∀ v, (StoreProxy.get p σ).1.1 = Normal v →
           isValueCached (StoreProxy.get p σ).1.2 = true ∧
           value (StoreProxy.get p σ).1.2 = v) ∧
     (∀ e, (StoreProxy.get p σ).1.1 = Throw e →
           isValueCached (StoreProxy.get p σ).1.2 = false)) ∧
  (∀ σ : ProxyState W, isValueCached σ = true →
     StoreProxy.get p σ = (Normal (value σ), σ, [])) ∧
  (∀ (op : Operation) (σ : ProxyState W), isValueCached σ = true →
     isValueCached (perform p op σ).1.2 = true).
Proof.
  split; [|split].
  - intros σ Hc. rewrite get_run, ensureValueCached_uncached by done. simpl.
    destruct (storage_exists _ _ _) as [[[]|e] w]; simpl;
      [|by split_and!; [|intros v [= <-]|]|by split_and!].
    destruct (storage_read _ _ _ _) as [[v'|e] w']; simpl; [|by split_and!].
    split_and!; [done| |done]. by intros v [= ->].
  - intros σ Hc. by rewrite get_run, ensureValueCached_cached.
  - intros op σ Hc. by apply perform_cached.
Qed.

(** C1, amended. On a store with [readonly] and [validate] both set,
    [getWithSet] never calls [write] and leaves the medium as it was.  When
    the slot loads and the setter function returns a candidate, the
    candidate is compared with the value of the slot, and only if both are
    truthy: then [validate] is invoked on them, and the call throws a
    [ValidationError] when [validate] throws and returns the value of the
    slot when it returns; if either of the two is falsy, [validate] is not
    invoked and the call returns the value of the slot.  The slot keeps its
    value: the candidate is not stored in it either. *)
Theorem getWithSet_inspects_without_writing
    (setterFn : Completion JsValue) (σ : ProxyState W) :
  StoreFlags.readonly (flags s) = true →
  StoreFlags.validate (flags s) = true →
  let run := StoreProxy.getWithSet p setterFn σ in
  Forall (λ c, isWrite c = false) run.2 ∧
  (QueriesPreserveStorage A W → medium run.1.2 = medium σ) ∧
  ∀ σ1 calls1 newValue,
    StoreProxy.ensureValueCached p σ = (Normal (), σ1, calls1) →
    setterFn = Normal newValue →
    run =
      if truthy (value σ1) && truthy newValue then
        (match validate strategy (value σ1) newValue key with
         | Normal _ => Normal (value σ1)
         | Throw e => Throw (ValidationError (StoreProxy.validationMessage p e))
         end, σ1, calls1 ++ [SetterFn; OptionsValidate (value σ1) newValue key])
      else (Normal (value σ1), σ1, calls1 ++ [SetterFn]).
Proof.
  intros Hro Hva run. unfold run. rewrite getWithSet_run.
  unfold StoreProxy.validating, StoreProxy.readonly. simpl. rewrite Hro, Hva. simpl.
  pose proof (ensureValueCached_no_write p σ) as Hw.
  assert (QueriesPreserveStorage A W →
          medium (StoreProxy.ensureValueCached p σ).1.2 = medium σ) as Hm.
  { intros Hq. exact (@ensureValueCached_medium _ _ _ p Hq σ). }
  destruct (StoreProxy.ensureValueCached p σ) as [[r σ1] calls1] eqn:E.
  pose proof (ensureValueCached_run p _ _ _ _ E) as (_ & _ & Hc & _).
  simpl in Hw, Hm. destruct r as [[]|e]; [|done].
  specialize (Hc eq_refl).
  destruct setterFn as [newValue|e].
  2:{ split; [|done]. each_call. }
  rewrite doValidation_run, ensureValueCached_cached by done.
  destruct (truthy (value σ1) && truthy newValue) eqn:Ht; simpl.
  - split; [|split; [by destruct (validate _ _ _ _)|]].
    + destruct (validate _ _ _ _); simpl; each_call.
    + intros ? ? ? [= <- <-] [= <-]. rewrite Ht.
      by destruct (validate _ _ _ _); simpl; rewrite ?app_nil_r.
  - split; [|split; [done|]].
    + each_call.
    + intros ? ? ? [= <- <-] [= <-]. by rewrite Ht.
Qed.

(** C3, amended. On a store with [validate] set and [readonly] not set,
    when the slot loads, the value it then holds and the new value are both
    truthy, and [validate] throws on them, [set] throws a [ValidationError]
    whose message includes the key and the identifier of the store; [write]
    is not called and the medium is as it was; the slot holds the old value:
    it is untouched when it was loaded before the call, and has been loaded
    from the medium otherwise. *)
Theorem set_validation_failure
    (newValue : JsValue) (σ σ1 : ProxyState W) (calls1 : list Call) (e : JsError) :
  StoreFlags.validate (flags s) = true →
  StoreFlags.readonly (flags s) = false →
  StoreProxy.ensureValueCached p σ = (Normal (), σ1, calls1) →
  truthy (value σ1) = true →
  truthy newValue = true →
  validate strategy (value σ1) newValue key = Throw e →
  let calls := calls1 ++ [OptionsValidate (value σ1) newValue key] in
  StoreProxy.set p newValue σ =
    (Throw (ValidationError (StoreProxy.validationMessage p e)), σ1, calls) ∧
  includes key (StoreProxy.validationMessage p e) ∧
  includes (identifier s) (StoreProxy.validationMessage p e) ∧
  Forall (λ c, isWrite c = false) calls ∧
  (QueriesPreserveStorage A W → medium σ1 = medium σ) ∧
  (isValueCached σ = true → σ1 = σ).
Proof.
  intros Hva Hro E Ho Hn He calls.
  pose proof (ensureValueCached_no_write p σ) as Hw.
  assert (QueriesPreserveStorage A W → medium σ1 = medium σ) as Hm.
  { intros Hq. pose proof (@ensureValueCached_medium _ _ _ p Hq σ) as Hm.
    by rewrite E in Hm. }
  rewrite E in Hw. simpl in Hw.
  split; [|split; [|split; [|split; [|split]]]].
  - rewrite set_run. unfold StoreProxy.validating, StoreProxy.readonly. simpl.
    rewrite Hro, Hva. rewrite doValidation_run, E, Ho, Hn. simpl. by rewrite He.
  - apply validationMessage_includes.
  - apply validationMessage_includes.
  - unfold calls. each_call.
  - done.
  - intros Hc. rewrite ensureValueCached_cached in E by done. by injection E.
Qed.

(** C5, amended. On a store with [validate] set and [readonly] not set, a
    call of [getWithSet] passes the candidate to [set] without validating it
    first: its calls are those of loading the slot, the setter function, and
    the calls of [set]; [validate] is invoked at most once in the call. *)
Theorem getWithSet_validates_at_most_once
    (setterFn : Completion JsValue) (σ : ProxyState W) :
  StoreFlags.validate (flags s) = true →
  StoreFlags.readonly (flags s) = false →
  validations (StoreProxy.getWithSet p setterFn σ).2 ≤ 1 ∧
  ∀ σ1 calls1 newValue,
    StoreProxy.ensureValueCached p σ = (Normal (), σ1, calls1) →
    setterFn = Normal newValue →
    StoreProxy.getWithSet p setterFn σ =
      let '(r, σ2, calls2) := StoreProxy.set p newValue σ1 in
      (match r with Normal _ => Normal (value σ2) | Throw e => Throw e end,
       σ2, calls1 ++ SetterFn :: calls2).
Proof.
  intros Hva Hro. split; [apply getWithSet_validations|].
  intros σ1 calls1 newValue E ->. rewrite getWithSet_run, E.
  unfold StoreProxy.validating, StoreProxy.readonly.
  simpl. rewrite Hva, Hro. simpl.
  by destruct (StoreProxy.set p newValue σ1) as [[[[]|e] σ2] calls2].
Qed.

(** C6. In every operation of a proxy, [validate] is invoked on truthy
    values only, so never when the old or the new value is absent.  The
    first write under [validate] (a proxy that has loaded nothing, over an
    entry that does not exist) calls [exists] and [write] and nothing else,
    and ends as [write] ends: [validate] is not invoked and the missing
    previous value raises no error. *)
Theorem validate_needs_both_values :
  (∀ (op : Operation) (σ : ProxyState W) oldValue newValue identifier,
     OptionsValidate oldValue newValue identifier ∈ (perform p op σ).2 →
     (truthy oldValue = true ∧ truthy newValue = true) ∧
     (absent oldValue = false ∧ absent newValue = false)) ∧
  (StoreFlags.validate (flags s) = true →
   StoreFlags.readonly (flags s) = false →
   ∀ (w w1 : W) (newValue : JsValue),
     storage_exists (storage s) (path p) w = (Normal false, w1) →
     StoreProxy.set p newValue (fresh w) =
       ((storage_write (storage s) (path p) newValue strategy w1).1,
        {| value := newValue; isValueCached := true;
           medium := (storage_write (storage s) (path p) newValue strategy w1).2 |},
        [StorageExists (path p); StorageWrite (path p) newValue])).
Proof.
  split.
  - intros op σ o n i Hin.
    pose proof (perform_wellAddressed p op σ) as Hc.
    rewrite Forall_forall in Hc. apply Hc in Hin as (Ho & Hn & _).
    split; [done|]. by destruct o, n.
  - intros Hva Hro w w1 newValue He.
    rewrite set_run. unfold StoreProxy.validating, StoreProxy.readonly. simpl.
    rewrite Hro, Hva. rewrite doValidation_run.
    rewrite ensureValueCached_uncached by done. simpl in *. rewrite He. simpl.
    by destruct (storage_write _ _ _ _ _).
Qed.

End Proxy.

(** The in-memory adapter keeps the contract of the queries; the file
    system adapter keeps it when [pathExists] and [import] leave the medium
    as it is. *)
Lemma InMemory_queries :
  QueriesPreserveStorage InMemoryStoreStorageAdapter.t (gmap nat (gmap string JsValue)).
Proof. by split. Qed.

Lemma Fs_queries {World : Type}
    (pathExists : string → World → Completion bool * World)
    (import : string → World → Completion FsStoreStorageAdapter.JsModule * World)
    (writeFile : string → string → World → Completion unit * World)
    (flatString : string → string)
    (unlink : string → World → Completion unit * World) :
  (∀ filePath w, (pathExists filePath w).2 = w) →
  (∀ filePath w, (import filePath w).2 = w) →
  @QueriesPreserveStorage _ _
    (FsStoreStorageAdapter.adapter pathExists import writeFile flatString unlink).
Proof.
  intros Hexists Himport. split; intros a k; [exact (Hexists _)|].
  intros o w. simpl. unfold FsStoreStorageAdapter.read.
  specialize (Himport (FsStoreStorageAdapter.getWrittenFileName a k) w).
  by destruct (import _ w) as [[m|e] w'].
Qed.

Lemma set_readonly_fails_witness :
  StoreProxy.set (MeshStore.proxy (Scenario.store true false) "k" Scenario.accepting)
    (JNumber 2) (Scenario.loaded (JNumber 1)) =
  (Throw (ReadonlyStoreError
     (StoreProxy.readonlyMessage
        (MeshStore.proxy (Scenario.store true false) "k" Scenario.accepting))),
   Scenario.loaded (JNumber 1), []).
Proof.
  apply (set_readonly_fails (Scenario.store true false) "k" Scenario.accepting
           (JNumber 2) (Scenario.loaded (JNumber 1))).
  reflexivity.
Defined.

Lemma delete_ignores_flags_and_cache_witness :
  let p := MeshStore.proxy (Scenario.store true false) "k" Scenario.accepting in
  let after := StoreProxy.delete p (Scenario.loaded (JNumber 1)) in
  after.1.1 = Normal () ∧
  InMemoryStoreStorageAdapter.data_of Scenario.memory (medium after.1.2) !! ".mesh/k"
    = None ∧
  StoreProxy.get p after.1.2 = (Normal (JNumber 1), after.1.2, []).
Proof.
  intros p after. split; [reflexivity|]. split; [reflexivity|].
  destruct (delete_ignores_flags_and_cache (Scenario.store true false) "k"
              Scenario.accepting (Scenario.loaded (JNumber 1))) as (_ & _ & Hget).
  apply Hget. reflexivity.
Defined.

Lemma get_loads_at_most_once_witness :
  let p := MeshStore.proxy (Scenario.store false false) "k" Scenario.accepting in
  let first := StoreProxy.get p (fresh (Scenario.stored (JNumber 1))) in
  first.2 = [StorageExists ".mesh/k"; StorageRead ".mesh/k"] ∧
  first.1.1 = Normal (JNumber 1) ∧
  StoreProxy.get p first.1.2 = (Normal (JNumber 1), first.1.2, []).
Proof.
  intros p first.
  destruct (get_loads_at_most_once (Scenario.store false false) "k"
              Scenario.accepting) as (Hfirst & Hnext & _).
  split; [|split].
  - apply (Hfirst (fresh (Scenario.stored (JNumber 1)))). reflexivity.
  - reflexivity.
  - apply (Hnext first.1.2). reflexivity.
Defined.

(** C4 as it is stated fails when the first [get] throws: over the file
    system adapter and a generated module that does not load, the first
    [get] throws the error of the import and leaves the slot unloaded, and
    the [get] that follows calls [exists] and [read] again. *)
Lemma get_loads_at_most_once_counterexample :
  let adapter := Scenario.fsAdapter in
  let p := MeshStore.proxy (Scenario.fsStore false false) "k" Scenario.accepting in
  let first := @StoreProxy.get _ _ adapter p (fresh Scenario.brokenFiles) in
  let second := @StoreProxy.get _ _ adapter p first.1.2 in
  first.1.1 = Throw (Error "SyntaxError: Unexpected end of input") ∧
  isValueCached first.1.2 = false ∧
  second.2 = [StorageExists "/out/k"; StorageRead "/out/k"].
Proof. vm_compute. done. Qed.

Lemma getWithSet_inspects_without_writing_witness :
  let p := MeshStore.proxy (Scenario.store true true) "k" Scenario.rejecting in
  let σ := fresh (Scenario.stored (JNumber 1)) in
  let run := StoreProxy.getWithSet p (Normal (JNumber 2)) σ in
  Forall (λ c, isWrite c = false) run.2 ∧
  medium run.1.2 = Scenario.stored (JNumber 1) ∧
  run.1.1 = Throw (ValidationError
                     (StoreProxy.validationMessage p (Error "incompatible"))).
Proof.
  intros p σ run.
  destruct (getWithSet_inspects_without_writing (Scenario.store true true) "k"
              Scenario.rejecting (Normal (JNumber 2)) σ eq_refl eq_refl)
    as (Hwrite & Hmedium & Hrun).
  split; [exact Hwrite|]. split; [exact (Hmedium InMemory_queries)|].
  exact (f_equal (λ x, x.1.1) (Hrun _ _ (JNumber 2) eq_refl eq_refl)).
Defined.

(** C1 as it is stated fails in two ways.  When the stored value is
    present but falsy (here the number 0), [validate] is not invoked
    although it would throw: the call returns the stored value and no
    error surfaces.  And the candidate is compared with the value of the
    slot, which need not be the stored one: a proxy that loaded 1 before
    the entry became 5 hands 1 to [validate], and asks the adapter
    nothing. *)
Lemma getWithSet_inspects_without_writing_counterexample :
  let p := MeshStore.proxy (Scenario.store true true) "k" Scenario.rejecting in
  (let σ := fresh (Scenario.stored (JNumber 0)) in
   let run := StoreProxy.getWithSet p (Normal (JNumber 2)) σ in
   absent (JNumber 0) = false ∧ absent (JNumber 2) = false ∧
   validate Scenario.rejecting (JNumber 0) (JNumber 2) "k" = Throw (Error "incompatible") ∧
   run = (Normal (JNumber 0), Scenario.loaded (JNumber 0),
          [StorageExists ".mesh/k"; StorageRead ".mesh/k"; SetterFn])) ∧
  (let σ := {| value := JNumber 1; isValueCached := true;
               medium := Scenario.stored (JNumber 5) |} in
   let run := StoreProxy.getWithSet p (Normal (JNumber 2)) σ in
   InMemoryStoreStorageAdapter.data_of Scenario.memory (medium σ) !! ".mesh/k"
     = Some (JNumber 5) ∧
   run.2 = [SetterFn; OptionsValidate (JNumber 1) (JNumber 2) "k"]).
Proof. vm_compute. done. Qed.

Lemma set_validation_failure_witness :
  let p := MeshStore.proxy (Scenario.store false true) "k" Scenario.rejecting in
  StoreProxy.set p (JNumber 2) (fresh (Scenario.stored (JNumber 1))) =
  (Throw (ValidationError (StoreProxy.validationMessage p (Error "incompatible"))),
   Scenario.loaded (JNumber 1),
   [StorageExists ".mesh/k"; StorageRead ".mesh/k";
    OptionsValidate (JNumber 1) (JNumber 2) "k"]).
Proof.
  intros p.
  apply (set_validation_failure (Scenario.store false true) "k" Scenario.rejecting
           (JNumber 2) (fresh (Scenario.stored (JNumber 1)))
           (Scenario.loaded (JNumber 1))
           [StorageExists ".mesh/k"; StorageRead ".mesh/k"] (Error "incompatible"));
    reflexivity.
Defined.

(** C3 as it is stated fails in two ways.  On a proxy that has loaded
    nothing, the failing [set] loads the slot: the slot is not as it was
    before the call.  And when the old value is present but falsy (here the
    number 0), [validate] is not invoked although it would throw: [set]
    returns and the entry is overwritten. *)
Lemma set_validation_failure_counterexample :
  let p := MeshStore.proxy (Scenario.store false true) "k" Scenario.rejecting in
  (let σ := fresh (Scenario.stored (JNumber 1)) in
   let after := StoreProxy.set p (JNumber 2) σ in
   absent (JNumber 1) = false ∧ absent (JNumber 2) = false ∧
   validate Scenario.rejecting (JNumber 1) (JNumber 2) "k" = Throw (Error "incompatible") ∧
   after.1.1 = Throw (ValidationError
                        (StoreProxy.validationMessage p (Error "incompatible"))) ∧
   (value σ, isValueCached σ) = (JUndefined, false) ∧
   (value after.1.2, isValueCached after.1.2) = (JNumber 1, true)) ∧
  (let σ := Scenario.loaded (JNumber 0) in
   let after := StoreProxy.set p (JNumber 2) σ in
   absent (JNumber 0) = false ∧ absent (JNumber 2) = false ∧
   validate Scenario.rejecting (JNumber 0) (JNumber 2) "k" = Throw (Error "incompatible") ∧
   after.1.1 = Normal () ∧
   after.2 = [StorageWrite ".mesh/k" (JNumber 2)] ∧
   InMemoryStoreStorageAdapter.data_of Scenario.memory (medium σ) !! ".mesh/k"
     = Some (JNumber 0) ∧
   InMemoryStoreStorageAdapter.data_of Scenario.memory (medium after.1.2) !! ".mesh/k"
     = Some (JNumber 2)).
Proof. vm_compute. done. Qed.

Lemma getWithSet_validates_at_most_once_witness :
  validations
    (StoreProxy.getWithSet
       (MeshStore.proxy (Scenario.store false true) "k" Scenario.accepting)
       (Normal (JNumber 2)) (fresh (Scenario.stored (JNumber 1)))).2 ≤ 1.
Proof.
  apply (getWithSet_validates_at_most_once (Scenario.store false true) "k"
           Scenario.accepting (Normal (JNumber 2))
           (fresh (Scenario.stored (JNumber 1)))); reflexivity.
Defined.

(** C5 as it is stated fails: no call of [getWithSet] on a store with
    [validate] set and [readonly] not set, whatever the adapter, the
    strategy, the setter function and the state, invokes [validate] twice. *)
Lemma getWithSet_validates_twice_counterexample :
  ¬ ∃ (A W : Type) (adapter : StoreStorageAdapter A W) (s : MeshStore A)
      (key : string) (strategy : ProxyOptions) (setterFn : Completion JsValue)
      (σ : ProxyState W),
      StoreFlags.validate (flags s) = true ∧
      StoreFlags.readonly (flags s) = false ∧
      2 ≤ validations
            (StoreProxy.getWithSet (MeshStore.proxy s key strategy) setterFn σ).2.
Proof.
  intros (A & W & adapter & s & key & strategy & setterFn & σ & _ & _ & Htwice).
  pose proof (getWithSet_validations (MeshStore.proxy s key strategy) setterFn σ).
  lia.
Qed.

Lemma validate_needs_both_values_witness :
  let p := MeshStore.proxy (Scenario.store false true) "j" Scenario.rejecting in
  StoreProxy.set p (JNumber 2) (fresh (Scenario.stored (JNumber 1))) =
  (Normal (),
   {| value := JNumber 2; isValueCached := true;
      medium := (InMemoryStoreStorageAdapter.write Scenario.memory ".mesh/j" (JNumber 2)
                   Scenario.rejecting (Scenario.stored (JNumber 1))).2 |},
   [StorageExists ".mesh/j"; StorageWrite ".mesh/j" (JNumber 2)]).
Proof.
  intros p.
  destruct (validate_needs_both_values (Scenario.store false true) "j"
              Scenario.rejecting) as (_ & Hfirst).
  apply (Hfirst eq_refl eq_refl (Scenario.stored (JNumber 1))
           (Scenario.stored (JNumber 1)) (JNumber 2)).
  reflexivity.
Defined.

(** ** The schema strategy *)

Section Diffing.
Variable diff : JsValue → JsValue → list Change.
Variable aggregateMessage : list string → string.

Lemma collect_errors_spec (changes : list Change) (errors : list string) :
  PredefinedProxyOptions.collect_errors changes errors =
  errors ++ map change_message (List.filter PredefinedProxyOptions.offending changes).
Proof.
  revert errors. induction changes as [|change rest IH]; intros errors; simpl.
  - by rewrite app_nil_r.
  - rewrite IH. destruct (PredefinedProxyOptions.offending change); [|done].
    simpl. by rewrite <- app_assoc.
Qed.

Lemma offending_spec (change : Change) :
  PredefinedProxyOptions.offending change = true ↔
  criticality_level change = CriticalityLevel.Breaking ∨
  criticality_level change = CriticalityLevel.Dangerous.
Proof.
  unfold PredefinedProxyOptions.offending.
  destruct (criticality_level change); simpl; split; intros; try done; auto.
  by destruct H as [?|?].
Qed.

(** C7. [validate] of [GraphQLSchemaWithDiffing] looks at every change of
    the diff: when no change is Breaking or Dangerous it returns; otherwise
    it throws one [AggregateError] that carries the messages of all the
    changes that are Breaking or Dangerous, one each and in the order of the
    diff. *)
Theorem GraphQLSchemaWithDiffing_validate_aggregates
    (oldSchema newSchema : JsValue) (identifier : string) :
  let changes := diff oldSchema newSchema in
  let offenders := List.filter PredefinedProxyOptions.offending changes in
  let errors := map change_message offenders in
  PredefinedProxyOptions.GraphQLSchemaWithDiffing_validate diff aggregateMessage
    oldSchema newSchema identifier =
    match offenders with
    | [] => Normal ()
    | _ => Throw (AggregateError errors (aggregateMessage errors))
    end ∧
  length errors = length offenders ∧
  (∀ change, change ∈ offenders ↔
     change ∈ changes ∧
     (criticality_level change = CriticalityLevel.Breaking ∨
      criticality_level change = CriticalityLevel.Dangerous)).
Proof.
  intros changes offenders errors. split; [|split].
  - unfold PredefinedProxyOptions.GraphQLSchemaWithDiffing_validate.
    rewrite collect_errors_spec. simpl. fold changes offenders errors.
    unfold errors. by destruct offenders.
  - unfold errors. by rewrite length_map.
  - intros change. unfold offenders.
    rewrite !list_elem_of_In, List.filter_In, offending_spec. done.
Qed.

End Diffing.

Example GraphQLSchemaWithDiffing_validate_example :
  PredefinedProxyOptions.GraphQLSchemaWithDiffing_validate
    (λ _ _, Scenario.changes) (String.concat ", ") JNull JNull "schema" =
  Throw (AggregateError ["Field 'a' was removed"; "Enum value 'C' was added"]
           "Field 'a' was removed, Enum value 'C' was added").
Proof. reflexivity. Qed.

(** ** Namespaces and storage keys *)

Section Namespacing.
Context {A : Type}.
Variable s : MeshStore A.
Variable strategy : ProxyOptions.

(** C8, amended. For identifiers [a], [b] and [k] that are plain paths
    (segments that are names, separated by single separators): the proxy
    for [k] of the child [a] has the storage key of the proxy for
    [join a k] of the store itself; the proxies for [k] of two different
    children have different storage keys; and a child has the adapter of
    its parent, the identifier of its parent joined with its own, and the
    flags of its parent with the overrides put over them.  ([child] builds
    a new node: the parent is not written to.) *)
Theorem child_namespacing (a b k : string) (overrides : StoreFlags.partial) :
  Path.plainPath a = true → Path.plainPath b = true → Path.plainPath k = true →
  let nested c := MeshStore.proxy (MeshStore.child s c overrides) k strategy in
  path (nested a) = path (MeshStore.proxy s (Path.join a k) strategy) ∧
  (a ≠ b → path (nested a) ≠ path (nested b)) ∧
  storage (MeshStore.child s a overrides) = storage s ∧
  identifier (MeshStore.child s a overrides) = Path.join (identifier s) a ∧
  flags (MeshStore.child s a overrides) = StoreFlags.spread (flags s) overrides ∧
  StoreFlags.readonly (flags (MeshStore.child s a overrides)) =
    default (StoreFlags.readonly (flags s)) (StoreFlags.readonly_opt overrides) ∧
  StoreFlags.validate (flags (MeshStore.child s a overrides)) =
    default (StoreFlags.validate (flags s)) (StoreFlags.validate_opt overrides).
Proof.
  intros Ha Hb Hk nested. simpl. split; [|split; [|done]].
  - by apply PathFacts.join_join_plain.
  - intros Hab Heq. by apply PathFacts.join_join_inj in Heq.
Qed.

End Namespacing.

Lemma child_namespacing_witness :
  let s := Scenario.store false false in
  let nested c :=
    MeshStore.proxy (MeshStore.child s c StoreFlags.no_overrides) "schema"
      Scenario.accepting in
  path (nested "sources") = ".mesh/sources/schema" ∧
  path (nested "sources") =
    path (MeshStore.proxy s (Path.join "sources" "schema") Scenario.accepting) ∧
  path (nested "sources") ≠ path (nested "cache").
Proof.
  intros s nested. split; [reflexivity|].
  destruct (child_namespacing s Scenario.accepting "sources" "cache" "schema"
              StoreFlags.no_overrides eq_refl eq_refl eq_refl)
    as (Hsame & Hdisjoint & _).
  split; [exact Hsame|]. apply Hdisjoint. discriminate.
Defined.

(** C8 as it is stated fails, because [join] normalises.  The children [x]
    and [x/] of a store are two identifiers with one storage key for [k];
    and for the child [/..] the nested form for [k] has the key [k], while
    [join] of the two, given to the store itself, has the key [.mesh/k]. *)
Lemma child_namespacing_counterexample :
  let s := Scenario.store false false in
  let nested c :=
    MeshStore.proxy (MeshStore.child s c StoreFlags.no_overrides) "k"
      Scenario.accepting in
  ("x" ≠ "x/" ∧ path (nested "x") = path (nested "x/")) ∧
  (path (nested "/..") = "k" ∧
   path (MeshStore.proxy s (Path.join "/.." "k") Scenario.accepting) = ".mesh/k").
Proof. vm_compute. done. Qed.

Section Views.
Context {A W : Type} `{StoreStorageAdapter A W}.
Variable s : MeshStore A.
Variable key : string.
Variable strategy : ProxyOptions.

Local Abbreviation p := (MeshStore.proxy s key strategy).

(** C10, amended. In every operation of a proxy, [validate] receives the
    key that was given to [proxy] (the one the messages of the two errors
    name), and every operation of the adapter receives the identifier of
    the store joined with that key; [write] of the file system adapter hands
    to [codify] the key it receives, so that a [set] that returns has
    written the text that [codify] makes of the value and of the joined
    identifier: [codify] returned a text for them, and the medium is the
    one that [writeFile] made when it put the flattened text in the file
    named after the joined identifier (into the medium as [set] found it,
    when the queries of the adapter leave it as it is).  For a key that is a plain path the two views are the same
    exactly when the identifier of the store resolves to the current
    directory ([join] of it alone is [.] or [./]): they differ for every
    other identifier. *)
Theorem identifier_views :
  (∀ (op : Operation) (σ : ProxyState W) (c : Call),
     c ∈ (perform p op σ).2 →
     match c with
     | OptionsValidate _ _ identifier => identifier = key
     | _ => ∀ k, storageKey c = Some k → k = Path.join (identifier s) key
     end) ∧
  includes key (StoreProxy.readonlyMessage p) ∧
  (∀ e, includes key (StoreProxy.validationMessage p e)) ∧
  (∀ (World : Type)
     (pathExists : string → World → Completion bool * World)
     (import : string → World → Completion FsStoreStorageAdapter.JsModule * World)
     (writeFile : string → string → World → Completion unit * World)
     (flatString : string → string)
     (unlink : string → World → Completion unit * World)
     (fsStore : MeshStore FsStoreStorageAdapter.t) (v : JsValue)
     (σ : ProxyState World),
     let fsAdapter :=
       FsStoreStorageAdapter.adapter pathExists import writeFile flatString unlink in
     let joined := Path.join (identifier fsStore) key in
     let run :=
       @StoreProxy.set _ _ fsAdapter (MeshStore.proxy fsStore key strategy) v σ in
     run.1.1 = Normal () →
     ∃ (asString : string) (w : World),
       codify strategy v joined = Normal asString ∧
       writeFile (FsStoreStorageAdapter.getWrittenFileName (storage fsStore) joined)
         (flatString asString) w = (Normal (), medium run.1.2) ∧
       (@QueriesPreserveStorage _ _ fsAdapter → w = medium σ)) ∧
  (Path.plainPath key = true →
   (Path.join (identifier s) key = key ↔
    (Path.join (identifier s) "" = "." ∨ Path.join (identifier s) "" = "./"))).
Proof.
  split; [|split; [|split; [|split]]].
  - intros op σ c Hin.
    pose proof (perform_wellAddressed p op σ) as Hc.
    rewrite Forall_forall in Hc. apply Hc in Hin.
    destruct c; simpl in *; try done; try (by intros k [= <-]).
    by destruct Hin as (_ & _ & ?).
  - apply readonlyMessage_includes.
  - apply validationMessage_includes.
  - intros World pathExists import writeFile flatString unlink fsStore v σ
      fsAdapter joined run. unfold run.
    rewrite set_run. destruct (StoreProxy.readonly _); [done|].
    assert (@QueriesPreserveStorage _ _ fsAdapter →
            medium
              ((if StoreProxy.validating (MeshStore.proxy fsStore key strategy)
                then @StoreProxy.doValidation _ _ fsAdapter
                       (MeshStore.proxy fsStore key strategy) v
                else mret ()) σ).1.2 = medium σ) as Hm.
    { intros Hq. destruct (StoreProxy.validating _);
        [exact (@doValidation_medium _ _ _ _ Hq _ _)|done]. }
    destruct_run; [|done]. simpl in Hm. simpl.
    unfold FsStoreStorageAdapter.write. fold joined.
    destruct (codify strategy v joined) as [asString|e]; [|done].
    destruct (writeFile _ _ _) as [r' w'] eqn:Hwrite. simpl. intros ->.
    by exists asString, (medium σ0).
  - apply PathFacts.join_fixed.
Qed.

End Views.

Lemma identifier_views_witness :
  Path.join (identifier (Scenario.store false false)) "k" ≠ "k".
Proof.
  intros Heq.
  destruct (identifier_views (Scenario.store false false) "k" Scenario.accepting)
    as (_ & _ & _ & _ & Hviews).
  apply (Hviews eq_refl) in Heq. by destruct Heq.
Defined.

(** C10 as it is stated fails for a store whose identifier is [.]: the
    identifier is not empty, and the storage key of the proxy for [k] is
    [k], the key itself. *)
Lemma identifier_views_counterexample :
  let s := {| identifier := "."; storage := Scenario.memory;
              flags := {| StoreFlags.readonly := false;
                          StoreFlags.validate := false |} |} in
  let p := MeshStore.proxy s "k" Scenario.accepting in
  identifier s ≠ "" ∧ path p = id p.
Proof. vm_compute. done. Qed.

(** * Further properties of the store *)

(** ** More about runs *)

Section MoreRuns.
Context {A W : Type} `{StoreStorageAdapter A W}.
Variable p : StoreProxy A.

Lemma setterCalls_app (calls1 calls2 : list Call) :
  setterCalls (calls1 ++ calls2) = setterCalls calls1 + setterCalls calls2.
Proof. unfold setterCalls. by rewrite List.filter_app, length_app. Qed.

(** [doValidation] calls [exists], [read] and [validate], nothing else. *)
Lemma doValidation_calls newValue σ :
  Forall (λ c, isMutation c = false ∧ c ≠ SetterFn)
    (StoreProxy.doValidation p newValue σ).2.
Proof.
  rewrite doValidation_run.
  pose proof (ensureValueCached_calls p σ) as Hc.
  assert (Forall (λ c, isMutation c = false ∧ c ≠ SetterFn)
            (StoreProxy.ensureValueCached p σ).2) as Hc'.
  { eapply Forall_impl; [exact Hc|]. by intros c [-> | ->]. }
  destruct (StoreProxy.ensureValueCached p σ) as [[[[]|e] σ1] calls]; [|done].
  destruct (truthy (value σ1) && truthy newValue); [|done].
  simpl in *. apply Forall_app. split; [done|]. by apply Forall_singleton.
Qed.

Lemma validation_step_calls (b : bool) newValue σ :
  Forall (λ c, isMutation c = false ∧ c ≠ SetterFn)
    ((if b then StoreProxy.doValidation p newValue else mret ()) σ).2.
Proof. destruct b; [apply doValidation_calls|done]. Qed.

Lemma validation_step_medium `{!QueriesPreserveStorage A W} (b : bool) newValue σ :
  medium ((if b then StoreProxy.doValidation p newValue else mret ()) σ).1.2
  = medium σ.
Proof. destruct b; [exact (doValidation_medium p newValue σ)|done]. Qed.

Lemma set_setterCalls newValue σ :
  setterCalls (StoreProxy.set p newValue σ).2 = 0.
Proof.
  rewrite set_run. destruct (StoreProxy.readonly p); [done|].
  pose proof (validation_step_calls (StoreProxy.validating p) newValue σ) as Hc.
  destruct_run.
  - destruct (storage_write _ _ _ _ _) as [r' w]. simpl in *.
    rewrite setterCalls_app. simpl. rewrite Nat.add_0_r.
    induction Hc as [|c calls' [_ Hc] _ IH]; [done|]. by destruct c.
  - simpl in *. induction Hc as [|c calls' [_ Hc] _ IH]; [done|]. by destruct c.
Qed.

Lemma validation_step_setterCalls (b : bool) newValue σ :
  setterCalls ((if b then StoreProxy.doValidation p newValue else mret ()) σ).2 = 0.
Proof.
  pose proof (validation_step_calls b newValue σ) as Hc.
  induction Hc as [|c calls' [_ Hc] _ IH]; [done|]. by destruct c.
Qed.

Lemma ensureValueCached_setterCalls σ :
  setterCalls (StoreProxy.ensureValueCached p σ).2 = 0.
Proof.
  pose proof (ensureValueCached_calls p σ) as Hc.
  induction Hc as [|c calls [-> | ->] _ IH]; done.
Qed.

Lemma ensureValueCached_consistent σ :
  slotConsistent σ → slotConsistent (StoreProxy.ensureValueCached p σ).1.2.
Proof.
  intros Hσ. destruct (StoreProxy.ensureValueCached p σ) as [[r σ1] calls] eqn:E.
  apply ensureValueCached_run in E as (_ & Hmono & _ & Hkeep).
  intros Hc. simpl in *. rewrite Hkeep by done. apply Hσ.
  destruct (isValueCached σ); [|done]. by rewrite Hmono in Hc.
Qed.

Lemma doValidation_consistent newValue σ :
  slotConsistent σ → slotConsistent (StoreProxy.doValidation p newValue σ).1.2.
Proof.
  intros Hσ%ensureValueCached_consistent. rewrite doValidation_run.
  destruct (StoreProxy.ensureValueCached p σ) as [[[[]|e] σ1] calls]; [|done].
  by destruct (truthy (value σ1) && truthy newValue).
Qed.

Lemma set_consistent newValue σ :
  slotConsistent σ → slotConsistent (StoreProxy.set p newValue σ).1.2.
Proof.
  intros Hσ. rewrite set_run. destruct (StoreProxy.readonly p); [done|].
  assert (slotConsistent
            ((if StoreProxy.validating p then StoreProxy.doValidation p newValue
              else mret ()) σ).1.2) as Hv.
  { destruct (StoreProxy.validating p); [by apply doValidation_consistent|done]. }
  destruct_run; [|done]. by destruct (storage_write _ _ _ _ _) as [r' w].
Qed.

Lemma getWithSet_consistent setterFn σ :
  slotConsistent σ → slotConsistent (StoreProxy.getWithSet p setterFn σ).1.2.
Proof.
  intros Hσ%ensureValueCached_consistent. rewrite getWithSet_run.
  destruct (StoreProxy.ensureValueCached p σ) as [[[[]|e] σ1] calls1]; [|done].
  simpl in Hσ.
  destruct (StoreProxy.validating p || negb (truthy (value σ1))); [|done].
  destruct setterFn as [newValue|e]; [|done].
  assert (slotConsistent
            ((if StoreProxy.validating p && StoreProxy.readonly p
              then StoreProxy.doValidation p newValue else mret ()) σ1).1.2) as Hv.
  { destruct (_ && _); [by apply doValidation_consistent|done]. }
  destruct_run; simpl in Hv; [|done].
  assert (slotConsistent
            ((if negb (StoreProxy.readonly p)
              then StoreProxy.set p newValue else mret ()) σ0).1.2) as Hs.
  { destruct (negb _); [by apply set_consistent|done]. }
  by destruct_run.
Qed.

End MoreRuns.

(** ** The proxy, further *)

Section MoreProxy.
Context {A W : Type} `{StoreStorageAdapter A W}.
Variable s : MeshStore A.
Variable key : string.
Variable strategy : ProxyOptions.

Local Abbreviation p := (MeshStore.proxy s key strategy).

Lemma getWithSet_plain_run
    (setterFn : Completion JsValue) (σ σ1 : ProxyState W) (calls1 : list Call) :
  StoreFlags.validate (flags s) = false →
  StoreFlags.readonly (flags s) = false →
  StoreProxy.ensureValueCached p σ = (Normal (), σ1, calls1) →
  StoreProxy.getWithSet p setterFn σ =
    if truthy (value σ1) then (Normal (value σ1), σ1, calls1)
    else
      match setterFn with
      | Throw e => (Throw e, σ1, calls1 ++ [SetterFn])
      | Normal newValue =>
          let '(r, w) := storage_write (storage s) (path p) newValue strategy
                           (medium σ1) in
          (match r with Normal _ => Normal newValue | Throw e => Throw e end,
           {| value := newValue; isValueCached := true; medium := w |},
           calls1 ++ [SetterFn; StorageWrite (path p) newValue])
      end.
Proof.
  intros Hva Hro E. rewrite getWithSet_run, E.
  unfold StoreProxy.validating, StoreProxy.readonly. simpl. rewrite Hva, Hro. simpl.
  destruct (truthy (value σ1)); [done|]. simpl.
  destruct setterFn as [newValue|e]; [|done].
  rewrite set_run. unfold StoreProxy.validating, StoreProxy.readonly. simpl.
  rewrite Hva, Hro. simpl.
  by destruct (storage_write _ _ _ _ _) as [[[]|e] w].
Qed.

Lemma getWithSet_setterCalls (setterFn : Completion JsValue) (σ : ProxyState W) :
  setterCalls (StoreProxy.getWithSet p setterFn σ).2 =
    match StoreProxy.ensureValueCached p σ with
    | (Throw _, _, _) => 0
    | (Normal _, σ1, _) =>
        if StoreFlags.validate (flags s) || negb (truthy (value σ1)) then 1 else 0
    end.
Proof.
  rewrite getWithSet_run.
  pose proof (ensureValueCached_setterCalls p σ) as Hc.
  destruct (StoreProxy.ensureValueCached p σ) as [[[[]|e] σ1] calls1]; [|done].
  simpl in Hc. unfold StoreProxy.validating at 1. simpl.
  destruct (_ || _); [|done].
  destruct setterFn as [newValue|e].
  2:{ simpl. by rewrite setterCalls_app, Hc. }
  pose proof (validation_step_setterCalls p
                (StoreProxy.validating p && StoreProxy.readonly p) newValue σ1) as Hv.
  destruct_run; simpl in Hv.
  2:{ simpl. rewrite setterCalls_app, Hc.
      change (setterCalls (SetterFn :: calls)) with (S (setterCalls calls)).
      by rewrite Hv. }
  assert (setterCalls
            ((if negb (StoreProxy.readonly p)
              then StoreProxy.set p newValue else mret ()) σ0).2 = 0) as Hs.
  { destruct (negb _); [apply set_setterCalls|done]. }
  destruct_run; simpl in *; rewrite setterCalls_app, Hc;
    change (setterCalls (SetterFn :: ?l)) with (S (setterCalls l));
    by rewrite setterCalls_app, Hv, Hs.
Qed.

(** X1. [set] stores the new value in the slot before it calls [write]:
    when [set] returns, and also when it got as far as calling [write] and
    [write] threw, the slot is loaded with the new value, and a [get] that
    follows returns it without a call. *)
Theorem set_updates_slot_before_write (v : JsValue) (σ : ProxyState W) :
  let run := StoreProxy.set p v σ in
  run.1.1 = Normal () ∨ StorageWrite (path p) v ∈ run.2 →
  value run.1.2 = v ∧ isValueCached run.1.2 = true ∧
  StoreProxy.get p run.1.2 = (Normal v, run.1.2, []).
Proof.
  intros run. unfold run. rewrite set_run.
  destruct (StoreProxy.readonly p).
  { intros [?|Hin]; [done|]. by apply elem_of_nil in Hin. }
  pose proof (validation_step_calls p (StoreProxy.validating p) v σ) as Hc.
  destruct_run.
  - destruct (storage_write _ _ _ _ _) as [r' w]. simpl. intros _.
    split_and!; [done..|]. by rewrite get_run, ensureValueCached_cached.
  - simpl in *. intros [?|Hin]; [done|].
    rewrite Forall_forall in Hc. by destruct (Hc _ Hin).
Qed.

(** X2. On a store whose [readonly] flag is set, [get], [set] and
    [getWithSet] call neither [write] nor [delete], and leave the medium as
    it was when the queries of the adapter do; [delete] is the one
    operation that still changes it. *)
Theorem readonly_store_is_not_mutated (op : Operation) (σ : ProxyState W) :
  StoreFlags.readonly (flags s) = true →
  op ≠ OpDelete →
  Forall (λ c, isMutation c = false) (perform p op σ).2 ∧
  (QueriesPreserveStorage A W → medium (perform p op σ).1.2 = medium σ).
Proof.
  intros Hro Hop.
  assert (Forall (λ c, isMutation c = false) (StoreProxy.ensureValueCached p σ).2)
    as Hcalls.
  { eapply Forall_impl; [apply (ensureValueCached_calls p)|]. by intros c [-> | ->]. }
  assert (QueriesPreserveStorage A W →
          medium (StoreProxy.ensureValueCached p σ).1.2 = medium σ) as Hmed.
  { intros Hq. exact (@ensureValueCached_medium _ _ _ p Hq σ). }
  destruct op as [|v|setterFn|]; [| | |done]; simpl.
  - rewrite get_run.
    by destruct (StoreProxy.ensureValueCached p σ) as [[[[]|e] σ1] calls].
  - rewrite bind_run, set_run. unfold StoreProxy.readonly. simpl. by rewrite Hro.
  - assert (StoreProxy.readonly p = true) as Hro' by done.
    rewrite getWithSet_run, !Hro'.
    destruct (StoreProxy.ensureValueCached p σ) as [[[[]|e] σ1] calls1]; [|done].
    simpl in Hcalls, Hmed.
    destruct (_ || _); [|done].
    destruct setterFn as [newValue|e].
    2:{ split; [|done]. each_call. }
    rewrite andb_true_r. simpl.
    pose proof (validation_step_calls p (StoreProxy.validating p) newValue σ1) as Hv.
    assert (QueriesPreserveStorage A W →
            medium ((if StoreProxy.validating p
                     then StoreProxy.doValidation p newValue else mret ()) σ1).1.2
            = medium σ1) as Hvm.
    { intros Hq. exact (@validation_step_medium _ _ _ p Hq _ newValue σ1). }
    destruct_run; simpl in *.
    + split; [|intros Hq; by rewrite Hvm, Hmed].
      rewrite app_nil_r. each_call.
      eapply Forall_impl; [exact Hv|]. by intros c [? _].
    + split; [|intros Hq; by rewrite Hvm, Hmed].
      each_call. eapply Forall_impl; [exact Hv|]. by intros c [? _].
Qed.

(** X3. On a store that is neither [readonly] nor validating, [getWithSet]
    reads through or computes: when the slot loads with a truthy value the
    call returns it and the setter function is not invoked; otherwise the
    setter function is invoked once, its result is stored in the slot,
    written once, and returned; an error of the setter function is thrown
    on, with nothing written.  A stored value that is falsy counts as
    missing. *)
Theorem getWithSet_reads_through_or_computes
    (setterFn : Completion JsValue) (σ σ1 : ProxyState W) (calls1 : list Call) :
  StoreFlags.validate (flags s) = false →
  StoreFlags.readonly (flags s) = false →
  StoreProxy.ensureValueCached p σ = (Normal (), σ1, calls1) →
  StoreProxy.getWithSet p setterFn σ =
    if truthy (value σ1) then (Normal (value σ1), σ1, calls1)
    else
      match setterFn with
      | Throw e => (Throw e, σ1, calls1 ++ [SetterFn])
      | Normal newValue =>
          let '(r, w) := storage_write (storage s) (path p) newValue strategy
                           (medium σ1) in
          (match r with Normal _ => Normal newValue | Throw e => Throw e end,
           {| value := newValue; isValueCached := true; medium := w |},
           calls1 ++ [SetterFn; StorageWrite (path p) newValue])
      end.
Proof.
  intros Hva Hro Hload. by apply getWithSet_plain_run.
Qed.

(** X4. On a [readonly] store that is not validating, [getWithSet] cannot
    supply a missing value: when the slot loads with a falsy value the
    setter function is invoked, but its result is dropped, and the call
    returns the falsy value of the slot. *)
Theorem getWithSet_readonly_drops_candidate
    (setterFn : Completion JsValue) (σ σ1 : ProxyState W) (calls1 : list Call) :
  StoreFlags.validate (flags s) = false →
  StoreFlags.readonly (flags s) = true →
  StoreProxy.ensureValueCached p σ = (Normal (), σ1, calls1) →
  StoreProxy.getWithSet p setterFn σ =
    if truthy (value σ1) then (Normal (value σ1), σ1, calls1)
    else
      (match setterFn with
       | Normal _ => Normal (value σ1)
       | Throw e => Throw e
       end, σ1, calls1 ++ [SetterFn]).
Proof.
  intros Hva Hro E. rewrite getWithSet_run, E.
  unfold StoreProxy.validating, StoreProxy.readonly. simpl. rewrite Hva, Hro. simpl.
  destruct (truthy (value σ1)); [done|]. simpl.
  by destruct setterFn as [newValue|e].
Qed.

(** X5. How often [getWithSet] invokes the setter function: not at all when
    loading the slot throws; otherwise once when the store validates or the
    loaded value is falsy, and not at all when the store does not validate
    and the loaded value is truthy. *)
Theorem getWithSet_setter_calls (setterFn : Completion JsValue) (σ : ProxyState W) :
  setterCalls (StoreProxy.getWithSet p setterFn σ).2 =
    match StoreProxy.ensureValueCached p σ with
    | (Throw _, _, _) => 0
    | (Normal _, σ1, _) =>
        if StoreFlags.validate (flags s) || negb (truthy (value σ1)) then 1 else 0
    end.
Proof.
  rewrite getWithSet_setterCalls.
  by destruct (StoreProxy.ensureValueCached p σ) as [[[[]|e] σ1] calls1].
Qed.

(** X6. On a store that is neither [readonly] nor validating, a value is
    computed at most once per proxy: after a [getWithSet] that returned a
    truthy value, every further [getWithSet] returns that value without a
    call, whatever setter function it is given; after one that returned a
    falsy value, the next one invokes its setter function again. *)
Theorem getWithSet_computes_once
    (setterFn setterFn' : Completion JsValue) (σ : ProxyState W) (v : JsValue) :
  StoreFlags.validate (flags s) = false →
  StoreFlags.readonly (flags s) = false →
  (StoreProxy.getWithSet p setterFn σ).1.1 = Normal v →
  let σ' := (StoreProxy.getWithSet p setterFn σ).1.2 in
  if truthy v then StoreProxy.getWithSet p setterFn' σ' = (Normal v, σ', [])
  else setterCalls (StoreProxy.getWithSet p setterFn' σ').2 = 1.
Proof.
  intros Hva Hro Hret σ'.
  assert (isValueCached σ' = true ∧ value σ' = v) as [Hc Hv].
  { unfold σ'. clear σ'.
    destruct (StoreProxy.ensureValueCached p σ) as [[r σ1] calls1] eqn:E.
    destruct r as [[]|e].
    - pose proof (ensureValueCached_run p _ _ _ _ E) as (_ & _ & Hc & _).
      rewrite (getWithSet_plain_run setterFn σ σ1 calls1) in Hret |- *
        by done.
      destruct (truthy (value σ1)); [by injection Hret as <-; auto|].
      destruct setterFn as [newValue|e]; [|done].
      destruct (storage_write _ _ _ _ _) as [[[]|e] w]; [|done].
      by injection Hret as <-.
    - by rewrite getWithSet_run, E in Hret. }
  pose proof (ensureValueCached_cached p σ' Hc) as E.
  destruct (truthy v) eqn:Ht.
  - rewrite (getWithSet_plain_run setterFn' σ' σ' []) by done.
    by rewrite Hv, Ht.
  - rewrite getWithSet_setterCalls, E, Hv, Ht. by rewrite Hva.
Qed.

(** X7. An unloaded slot holds no value: every operation of a proxy keeps
    this, so it holds from the creation of the proxy on. *)
Theorem slot_stays_consistent (op : Operation) (σ : ProxyState W) :
  slotConsistent σ → slotConsistent (perform p op σ).1.2.
Proof.
  intros Hσ. destruct op as [|v|setterFn|]; simpl.
  - rewrite get_run. pose proof (ensureValueCached_consistent p σ Hσ) as Hc.
    by destruct (StoreProxy.ensureValueCached p σ) as [[[[]|e] σ1] calls].
  - rewrite bind_run. pose proof (set_consistent p v σ Hσ) as Hc.
    by destruct (StoreProxy.set p v σ) as [[[[]|e] σ1] calls].
  - by apply getWithSet_consistent.
  - rewrite bind_run, delete_run.
    by destruct (storage_delete _ _ _) as [[[]|e] w].
Qed.

(** X8. With a strategy whose [validate] is the one of [JsonWithoutValidation]
    and [StringWithoutValidation], a validating store rejects nothing: once
    the slot loads, [set] stores the new value, calls [write] and ends as
    [write] ends, and throws no [ValidationError]. *)
Theorem set_with_validate_nothing
    (v : JsValue) (σ σ1 : ProxyState W) (calls1 : list Call) :
  validate strategy = PredefinedProxyOptions.validate_nothing →
  StoreFlags.validate (flags s) = true →
  StoreFlags.readonly (flags s) = false →
  StoreProxy.ensureValueCached p σ = (Normal (), σ1, calls1) →
  let run := StoreProxy.set p v σ in
  run.1.1 = (storage_write (storage s) (path p) v strategy (medium σ1)).1 ∧
  run.1.2 = {| value := v; isValueCached := true;
               medium := (storage_write (storage s) (path p) v strategy
                            (medium σ1)).2 |} ∧
  StorageWrite (path p) v ∈ run.2.
Proof.
  intros Hnothing Hva Hro E run. unfold run. rewrite set_run.
  unfold StoreProxy.validating, StoreProxy.readonly. simpl. rewrite Hva, Hro.
  rewrite doValidation_run, E. simpl. rewrite Hnothing.
  destruct (truthy (value σ1) && truthy v); simpl;
    destruct (storage_write _ _ _ _ _) as [r w]; simpl;
    (split_and!; [done..|]); apply elem_of_app; right; by left.
Qed.

(** X9. On a store that validates and is not [readonly], [getWithSet] on a
    loaded slot always invokes the setter function.  When the value of the
    slot and the candidate are both truthy and [validate] throws, the call
    throws a [ValidationError] and leaves the slot and the medium as they
    were; in every other case the candidate is stored in the slot, written,
    and returned when [write] returns. *)
Theorem getWithSet_validating_store
    (newValue : JsValue) (σ : ProxyState W) :
  StoreFlags.validate (flags s) = true →
  StoreFlags.readonly (flags s) = false →
  isValueCached σ = true →
  StoreProxy.getWithSet p (Normal newValue) σ =
    let written :=
      let '(r, w) := storage_write (storage s) (path p) newValue strategy
                       (medium σ) in
      (match r with Normal _ => Normal newValue | Throw e => Throw e end,
       {| value := newValue; isValueCached := true; medium := w |}) in
    if truthy (value σ) && truthy newValue then
      match validate strategy (value σ) newValue key with
      | Throw e =>
          (Throw (ValidationError (StoreProxy.validationMessage p e)), σ,
           [SetterFn; OptionsValidate (value σ) newValue key])
      | Normal _ =>
          (written.1, written.2,
           [SetterFn; OptionsValidate (value σ) newValue key;
            StorageWrite (path p) newValue])
      end
    else (written.1, written.2, [SetterFn; StorageWrite (path p) newValue]).
Proof.
  intros Hva Hro Hc. rewrite getWithSet_run, ensureValueCached_cached by done.
  unfold StoreProxy.validating, StoreProxy.readonly. simpl. rewrite Hva, Hro. simpl.
  rewrite set_run. unfold StoreProxy.validating, StoreProxy.readonly. simpl.
  rewrite Hva, Hro. rewrite doValidation_run, ensureValueCached_cached by done.
  destruct (truthy (value σ) && truthy newValue); simpl.
  - destruct (validate _ _ _ _); [|done].
    by destruct (storage_write _ _ _ _ _) as [[[]|e] w].
  - by destruct (storage_write _ _ _ _ _) as [[[]|e] w].
Qed.

End MoreProxy.

(** ** The in-memory adapter *)

Section InMemory.
Import InMemoryStoreStorageAdapter.
Variable this : InMemoryStoreStorageAdapter.t.

Lemma data_of_insert (h : gmap nat (gmap string JsValue)) (m : gmap string JsValue) :
  data_of this (<[data this := m]> h) = m.
Proof. unfold data_of. by rewrite lookup_insert_eq. Qed.

Lemma data_of_insert_other (other : InMemoryStoreStorageAdapter.t)
    (h : gmap nat (gmap string JsValue)) (m : gmap string JsValue) :
  data other ≠ data this → data_of other (<[data this := m]> h) = data_of other h.
Proof. intros Hne. unfold data_of. by rewrite lookup_insert_ne. Qed.

Lemma InMemory_write_facts (key : string) (v : JsValue)
    (options options' : ProxyOptions) (h : gmap nat (gmap string JsValue)) :
  let h' := (write this key v options h).2 in
  (write this key v options h).1 = Normal () ∧
  exists_ this key h' = (Normal true, h') ∧
  read this key options' h' = (Normal v, h') ∧
  (∀ key', key' ≠ key →
     exists_ this key' h' = ((exists_ this key' h).1, h') ∧
     read this key' options' h' = ((read this key' options' h).1, h')) ∧
  (∀ other, data other ≠ data this → data_of other h' = data_of other h).
Proof.
  intros h'. unfold h', write, exists_, read. simpl. rewrite data_of_insert.
  split_and!; [done|by rewrite lookup_insert_eq..| |].
  - intros key' Hne. by rewrite lookup_insert_ne.
  - intros other Hne. by apply data_of_insert_other.
Qed.

Lemma InMemory_delete_facts (key : string)
    (options : ProxyOptions) (h : gmap nat (gmap string JsValue)) :
  let h' := (delete this key h).2 in
  (delete this key h).1 = Normal () ∧
  exists_ this key h' = (Normal false, h') ∧
  read this key options h' = (Normal JUndefined, h') ∧
  (∀ key', key' ≠ key →
     exists_ this key' h' = ((exists_ this key' h).1, h') ∧
     read this key' options h' = ((read this key' options h).1, h')) ∧
  (∀ other, data other ≠ data this → data_of other h' = data_of other h).
Proof.
  intros h'. unfold h', delete, exists_, read. simpl. rewrite data_of_insert.
  split_and!; [done|by rewrite lookup_delete_eq..| |].
  - intros key' Hne. by rewrite lookup_delete_ne.
  - intros other Hne. by apply data_of_insert_other.
Qed.

(** X10. After [write] of the in-memory adapter, [exists] answers true for
    the key and [read] returns the value that was written; the other keys
    of the adapter answer as before, and so does every other adapter
    object. *)
Theorem InMemory_write_then_read (key : string) (v : JsValue)
    (options options' : ProxyOptions) (h : gmap nat (gmap string JsValue)) :
  let h' := (write this key v options h).2 in
  (write this key v options h).1 = Normal () ∧
  exists_ this key h' = (Normal true, h') ∧
  read this key options' h' = (Normal v, h') ∧
  (∀ key', key' ≠ key →
     exists_ this key' h' = ((exists_ this key' h).1, h') ∧
     read this key' options' h' = ((read this key' options' h).1, h')) ∧
  (∀ other, data other ≠ data this → data_of other h' = data_of other h).
Proof.
  intros h'. destruct (InMemory_write_facts key v options options' h)
    as (Hret & Hexists & Hread & Hkeys & Hothers).
  by split_and!.
Qed.

(** X11. [delete] of the in-memory adapter returns also when the key is
    missing; after it [exists] answers false for the key and [read] returns
    [undefined]; the other keys and the other adapter objects answer as
    before. *)
Theorem InMemory_delete_then_missing (key : string)
    (options : ProxyOptions) (h : gmap nat (gmap string JsValue)) :
  let h' := (delete this key h).2 in
  (delete this key h).1 = Normal () ∧
  exists_ this key h' = (Normal false, h') ∧
  read this key options h' = (Normal JUndefined, h') ∧
  (∀ key', key' ≠ key →
     exists_ this key' h' = ((exists_ this key' h).1, h') ∧
     read this key' options h' = ((read this key' options h).1, h')) ∧
  (∀ other, data other ≠ data this → data_of other h' = data_of other h).
Proof.
  intros h'. destruct (InMemory_delete_facts key options h)
    as (Hret & Hexists & Hread & Hkeys & Hothers).
  by split_and!.
Qed.

(** X12. [clear] empties the map of the adapter it is called on: no key
    exists there afterwards; every other adapter object keeps its
    entries. *)
Theorem InMemory_clear_empties (h : gmap nat (gmap string JsValue)) :
  (∀ key, exists_ this key (clear this h) = (Normal false, clear this h)) ∧
  (∀ other, data other ≠ data this → data_of other (clear this h) = data_of other h).
Proof.
  split.
  - intros key. unfold exists_, clear. by rewrite data_of_insert.
  - intros other Hne. by apply data_of_insert_other.
Qed.

End InMemory.

(** ** The file system adapter *)

Section FileSystem.
Import FsStoreStorageAdapter.
Context {World : Type}.
Variable pathExists : string → World → Completion bool * World.
Variable import : string → World → Completion JsModule * World.
Variable writeFile : string → string → World → Completion unit * World.
Variable flatString : string → string.
Variable unlink : string → World → Completion unit * World.
Variable this : FsStoreStorageAdapter.t.

Local Abbreviation fsAdapter :=
  (adapter pathExists import writeFile flatString unlink).



(** X14. [read] of the file system adapter returns the default export of
    the module that [import] resolves to when that export is truthy, and
    the module object otherwise.  So a falsy value is not read back: when
    module objects are truthy, as objects are, the first [get] of a proxy
    over the file system adapter returns [undefined] (nothing exists under
    the key) or a truthy value, never [0], the empty string, [false] or
    [null]. *)
Theorem Fs_get_never_falsy :
  (∀ key options w m w',
     import (getWrittenFileName this key) w = (Normal m, w') →
     read import this key options w =
       (Normal (if truthy (default_export m) then default_export m else namespace m),
        w')) ∧
  ((∀ filePath w m w', import filePath w = (Normal m, w') → truthy (namespace m) = true) →
   ∀ (s : MeshStore FsStoreStorageAdapter.t) (key : string) (strategy : ProxyOptions)
     (w : World) (r : JsValue) (σ : ProxyState World) (calls : list Call),
     @StoreProxy.get _ _ fsAdapter (MeshStore.proxy s key strategy) (fresh w) =
       (Normal r, σ, calls) →
     r = JUndefined ∨ truthy r = true).
Proof.
  split.
  - intros key options w m w' Himport. unfold read. by rewrite Himport.
  - intros Hobject s key strategy w r σ calls.
    rewrite get_run, ensureValueCached_uncached by done.
    unfold storage_exists, storage_read. simpl. unfold exists_, read.
    destruct (pathExists _ _) as [[[]|e] w1]; [| |done].
    + destruct (import _ w1) as [[m|e] w2] eqn:Himport; [|done].
      intros [= <- <- <-]. right.
      destruct (truthy (default_export m)) eqn:Hdefault; [done|].
      exact (Hobject _ _ _ _ Himport).
    + intros [= <- <- <-]. by left.
Qed.

End FileSystem.

(** ** Proxies over the in-memory adapter *)

Section InMemoryProxy.
Variable s : MeshStore InMemoryStoreStorageAdapter.t.
Variable key : string.
Variable strategy : ProxyOptions.

Local Abbreviation p := (MeshStore.proxy s key strategy).
Local Abbreviation State := (ProxyState (gmap nat (gmap string JsValue))).

Lemma InMemory_ensureValueCached (σ : State) :
  (StoreProxy.ensureValueCached p σ).1.1 = Normal () ∧
  medium (StoreProxy.ensureValueCached p σ).1.2 = medium σ.
Proof.
  destruct (isValueCached σ) eqn:Hc.
  - by rewrite ensureValueCached_cached.
  - rewrite ensureValueCached_uncached by done. simpl.
    unfold InMemoryStoreStorageAdapter.exists_.
    by destruct (_ !! _).
Qed.

Lemma InMemory_doValidation (newValue : JsValue) (σ : State) (e : JsError) :
  (StoreProxy.doValidation p newValue σ).1.1 = Throw e →
  ∃ e', e = ValidationError (StoreProxy.validationMessage p e').
Proof.
  rewrite doValidation_run. pose proof (InMemory_ensureValueCached σ) as [He _].
  destruct (StoreProxy.ensureValueCached p σ) as [[[[]|e0] σ1] calls]; [|done].
  destruct (truthy (value σ1) && truthy newValue); [|done]. simpl.
  destruct (validate _ _ _ _) as [|e']; [done|]. intros [= <-]. by exists e'.
Qed.

Lemma InMemory_set_throws (newValue : JsValue) (σ : State) (e : JsError) :
  (StoreProxy.set p newValue σ).1.1 = Throw e →
  (StoreFlags.readonly (flags s) = true ∧
   e = ReadonlyStoreError (StoreProxy.readonlyMessage p)) ∨
  (StoreFlags.readonly (flags s) = false ∧ StoreFlags.validate (flags s) = true ∧
   ∃ e', e = ValidationError (StoreProxy.validationMessage p e')).
Proof.
  rewrite set_run. unfold StoreProxy.readonly, StoreProxy.validating. simpl.
  destruct (StoreFlags.readonly (flags s)); [intros [= <-]; by left|].
  destruct (StoreFlags.validate (flags s)); [|done].
  pose proof (InMemory_doValidation newValue σ) as Hv.
  destruct (StoreProxy.doValidation p newValue σ) as [[[[]|e0] σ1] calls]; [done|].
  simpl. intros [= <-]. right. split_and!; [done..|]. by apply Hv.
Qed.

(** X15. Over the in-memory adapter, [get] and [delete] never throw; [set]
    throws only a [ReadonlyStoreError], on a [readonly] store, or a
    [ValidationError], on a validating one; and [getWithSet] throws only
    what its setter function throws, or a [ValidationError] on a
    validating store: it never throws a [ReadonlyStoreError]. *)
Theorem InMemory_errors (op : Operation) (σ : State) (e : JsError) :
  (perform p op σ).1.1 = Throw e →
  match op with
  | OpGet | OpDelete => False
  | OpSet _ =>
      (StoreFlags.readonly (flags s) = true ∧
       e = ReadonlyStoreError (StoreProxy.readonlyMessage p)) ∨
      (StoreFlags.readonly (flags s) = false ∧ StoreFlags.validate (flags s) = true ∧
       ∃ e', e = ValidationError (StoreProxy.validationMessage p e'))
  | OpGetWithSet setterFn =>
      setterFn = Throw e ∨
      (StoreFlags.validate (flags s) = true ∧
       ∃ e', e = ValidationError (StoreProxy.validationMessage p e'))
  end.
Proof.
  destruct op as [|v|setterFn|]; simpl.
  - rewrite get_run. pose proof (InMemory_ensureValueCached σ) as [He _].
    by destruct (StoreProxy.ensureValueCached p σ) as [[[[]|e0] σ1] calls].
  - rewrite bind_run. pose proof (InMemory_set_throws v σ) as Hs.
    destruct (StoreProxy.set p v σ) as [[[[]|e0] σ1] calls]; [done|].
    simpl in *. intros [= <-]. by apply Hs.
  - rewrite getWithSet_run. pose proof (InMemory_ensureValueCached σ) as [He _].
    destruct (StoreProxy.ensureValueCached p σ) as [[[[]|e0] σ1] calls1]; [|done].
    destruct (_ || _); [|done].
    destruct setterFn as [newValue|e0]; [|intros [= <-]; by left].
    unfold StoreProxy.readonly, StoreProxy.validating. simpl.
    destruct (StoreFlags.validate (flags s)) eqn:Hva,
             (StoreFlags.readonly (flags s)) eqn:Hro; simpl.
    + pose proof (InMemory_doValidation newValue σ1) as Hv.
      destruct (StoreProxy.doValidation p newValue σ1) as [[[[]|e0] σ2] calls2];
        [done|].
      simpl. intros [= <-]. right. split; [done|]. by apply Hv.
    + pose proof (InMemory_set_throws newValue σ1) as Hs.
      destruct (StoreProxy.set p newValue σ1) as [[[[]|e0] σ2] calls2]; [done|].
      simpl. intros [= ->]. right. split; [done|].
      destruct (Hs e eq_refl) as [[Hro' _]|(_ & _ & ?)]; [|done].
      by rewrite Hro in Hro'.
    + done.
    + pose proof (InMemory_set_throws newValue σ1) as Hs.
      destruct (StoreProxy.set p newValue σ1) as [[[[]|e0] σ2] calls2]; [done|].
      simpl. intros [= ->].
      destruct (Hs e eq_refl) as [[Hro' _]|(_ & Hva' & _)].
      * by rewrite Hro in Hro'.
      * by rewrite Hva in Hva'.
  - done.
Qed.

Variable s' : MeshStore InMemoryStoreStorageAdapter.t.
Variable strategy' : ProxyOptions.

Local Abbreviation q := (MeshStore.proxy s' key strategy').

(** X16. A value that [set] has written over the in-memory adapter is what
    a new proxy for the same key gets, from any node with the same
    identifier over the same adapter object, whatever its flags and its
    strategy: its first [get] calls [exists] and [read] and returns the
    value. *)
Theorem InMemory_set_then_new_proxy (v : JsValue) (σ : State) :
  storage s' = storage s →
  identifier s' = identifier s →
  (StoreProxy.set p v σ).1.1 = Normal () →
  let h' := medium (StoreProxy.set p v σ).1.2 in
  StoreProxy.get q (fresh h') =
    (Normal v, {| value := v; isValueCached := true; medium := h' |},
     [StorageExists (Path.join (identifier s) key);
      StorageRead (Path.join (identifier s) key)]).
Proof.
  intros same_storage same_identifier Hret h'.
  assert (h' = (InMemoryStoreStorageAdapter.write (storage s)
                  (Path.join (identifier s) key) v strategy (medium σ)).2) as Hh'.
  { unfold h'. clear h'. revert Hret. rewrite set_run.
    destruct (StoreProxy.readonly p); [done|].
    pose proof (@validation_step_medium _ _ _ p InMemory_queries
                  (StoreProxy.validating p) v σ) as Hm.
    destruct_run; [|done]. simpl in *. by rewrite Hm. }
  rewrite get_run, ensureValueCached_uncached by done.
  cbn [this path storage medium fresh MeshStore.proxy storage_exists storage_read
       InMemory_adapter options].
  rewrite same_storage, same_identifier.
  destruct (InMemory_write_facts (storage s) (Path.join (identifier s) key) v
              strategy strategy' (medium σ)) as (_ & Hexists & Hread & _).
  rewrite <- Hh' in Hexists, Hread. by rewrite Hexists, Hread.
Qed.

(** X17. After [delete] over the in-memory adapter a new proxy for the same
    key finds nothing: its first [get] calls [exists] only and returns
    [undefined]. *)
Theorem InMemory_delete_then_new_proxy (σ : State) :
  storage s' = storage s →
  identifier s' = identifier s →
  let h' := medium (StoreProxy.delete p σ).1.2 in
  (StoreProxy.delete p σ).1.1 = Normal () ∧
  StoreProxy.get q (fresh h') =
    (Normal JUndefined,
     {| value := JUndefined; isValueCached := true; medium := h' |},
     [StorageExists (Path.join (identifier s) key)]).
Proof.
  intros same_storage same_identifier h'. unfold h'. rewrite delete_run.
  change (storage_delete (storage (this p)) (path p) (medium σ))
    with (InMemoryStoreStorageAdapter.delete (storage s)
            (Path.join (identifier s) key) (medium σ)).
  destruct (InMemory_delete_facts (storage s) (Path.join (identifier s) key)
              strategy' (medium σ)) as (Hret & Hexists & _).
  destruct (InMemoryStoreStorageAdapter.delete _ _ _) as [r h''].
  cbn [fst snd medium] in *. split; [done|].
  rewrite get_run, ensureValueCached_uncached by done.
  cbn [this path storage medium fresh MeshStore.proxy storage_exists storage_read
       InMemory_adapter options].
  rewrite same_storage, same_identifier. by rewrite Hexists.
Qed.

End InMemoryProxy.

(** ** [escapeForTemplateLiteral] and the string strategy *)

Section Escaping.

Lemma split_nonempty (c : ascii) (str : string) : JsString.split c str ≠ [].
Proof.
  destruct str as [|x rest]; [done|]. simpl.
  destruct (decide (x = c)); [done|]. by destruct (JsString.split c rest).
Qed.

(** Splitting at a character and joining with a string replaces the
    character by the string. *)
Lemma join_split (c : ascii) (replacement str : string) :
  JsString.join replacement (JsString.split c str) =
  JsString.replaceAll c replacement str.
Proof.
  induction str as [|x rest IH]; [done|]. simpl.
  pose proof (split_nonempty c rest) as Hne.
  destruct (decide (x = c)) as [->|Hx].
  - rewrite <- IH. unfold JsString.join.
    by destruct (JsString.split c rest).
  - rewrite <- IH. unfold JsString.join.
    destruct (JsString.split c rest) as [|piece [|piece' pieces]]; done.
Qed.

Lemma replaceAll_append (c : ascii) (replacement a b : string) :
  JsString.replaceAll c replacement (a +:+ b) =
  JsString.replaceAll c replacement a +:+ JsString.replaceAll c replacement b.
Proof.
  induction a as [|x a IH]; [done|].
  rewrite append_cons. simpl. by rewrite IH, append_assoc.
Qed.

Lemma escapeForTemplateLiteral_chars (str : string) :
  escapeForTemplateLiteral str = escapeChars str.
Proof.
  unfold escapeForTemplateLiteral. rewrite !join_split.
  induction str as [|x rest IH]; [done|]. simpl.
  rewrite replaceAll_append, IH. f_equal.
  unfold escapeChar. destruct (decide (x = backtick)) as [->|Hx]; [done|].
  simpl. destruct (decide (x = dollar)); by rewrite ?append_empty_r.
Qed.

Lemma escapeChars_append (a b : string) :
  escapeChars (a +:+ b) = escapeChars a +:+ escapeChars b.
Proof.
  induction a as [|x a IH]; [done|].
  rewrite append_cons. simpl. by rewrite IH, append_assoc.
Qed.

Lemma escapeChars_eachEscaped (previous : option ascii) (str : string) :
  eachEscaped previous (escapeChars str) = true.
Proof.
  revert previous. induction str as [|x rest IH]; intros previous; [done|].
  simpl. unfold escapeChar.
  destruct (decide (x = backtick)) as [->|Hb]; [by rewrite !append_cons; simpl; rewrite IH|].
  destruct (decide (x = dollar)) as [->|Hd]; [by rewrite !append_cons; simpl; rewrite IH|].
  rewrite append_cons. simpl. rewrite IH.
  destruct (decide (x = backtick ∨ x = dollar)) as [[?|?]|]; done.
Qed.

Lemma escapeChars_plain (str : string) :
  occurs backtick str = false → occurs dollar str = false → escapeChars str = str.
Proof.
  induction str as [|x rest IH]; [done|]. simpl. unfold escapeChar.
  destruct (decide (x = backtick)); [done|]. destruct (decide (x = dollar)); [done|].
  simpl. intros ??. by rewrite append_cons, IH.
Qed.

(** X18. [escapeForTemplateLiteral] puts a backslash before every backtick
    and every dollar and changes nothing else (a backslash of the value
    stays single): it works character by character, so it distributes over
    concatenation; in its result every backtick and every dollar comes
    right after a backslash; and a string with neither is returned as it
    is. *)
Theorem escapeForTemplateLiteral_spec (str str' : string) :
  escapeForTemplateLiteral str = escapeChars str ∧
  escapeForTemplateLiteral (str +:+ str') =
    escapeForTemplateLiteral str +:+ escapeForTemplateLiteral str' ∧
  eachEscaped None (escapeForTemplateLiteral str) = true ∧
  (occurs backtick str = false → occurs dollar str = false →
   escapeForTemplateLiteral str = str).
Proof.
  rewrite !escapeForTemplateLiteral_chars. split_and!.
  - done.
  - apply escapeChars_append.
  - apply escapeChars_eachEscaped.
  - apply escapeChars_plain.
Qed.

Lemma escapeChars_head (str : string) (rest : string) (c : ascii) :
  escapeChars str = String c rest → c ≠ backtick ∧ c ≠ dollar.
Proof.
  destruct str as [|x str]; [done|]. simpl. unfold escapeChar.
  destruct (decide (x = backtick)) as [->|Hb];
    [rewrite append_cons; intros Heq; by injection Heq as <- _|].
  destruct (decide (x = dollar)) as [->|Hd];
    [rewrite append_cons; intros Heq; by injection Heq as <- _|].
  rewrite append_cons. intros Heq. by injection Heq as <- _.
Qed.

Lemma append_empty_l (t : string) : "" +:+ t = t.
Proof. reflexivity. Qed.

Lemma escapeChars_inj (a b : string) : escapeChars a = escapeChars b → a = b.
Proof.
  revert b. induction a as [|x a IH]; intros [|y b]; simpl.
  - done.
  - unfold escapeChar. repeat case_decide; by rewrite ?append_cons.
  - unfold escapeChar. repeat case_decide; by rewrite ?append_cons.
  - unfold escapeChar.
    repeat case_decide; subst; rewrite ?append_cons, ?append_empty_l; intros Heq;
      simplify_eq; try done; try (f_equal; by apply IH).
    all: try match goal with
             | Hhead : escapeChars _ = String _ _ |- _ =>
                 by apply escapeChars_head in Hhead as [??]
             end.
    all: match goal with
         | Hhead : String _ _ = escapeChars _ |- _ =>
             symmetry in Hhead; by apply escapeChars_head in Hhead as [??]
         end.
Qed.

(** X19. The text that [codify] of [StringWithoutValidation] makes is the
    same whatever the identifier, and determines the value: two different
    strings are never given the same text. *)
Theorem StringWithoutValidation_codify_inj (v v' identifier identifier' : string) :
  StringWithoutValidation_codify v identifier =
    StringWithoutValidation_codify v identifier' ∧
  (StringWithoutValidation_codify v identifier =
     StringWithoutValidation_codify v' identifier' → v = v').
Proof.
  split; [done|]. unfold StringWithoutValidation_codify.
  intros Heq%(inj (String.app _))%(inj (String.app _))%append_inv_tail.
  rewrite !escapeForTemplateLiteral_chars in Heq. by apply escapeChars_inj.
Qed.

End Escaping.

(** ** Nodes below nodes, and the stores of the command line *)

Section Descendants.
Import Path.

(** Below any path, a plain path and then another are two steps down. *)
Lemma join_join_plain_text (x a b : string) :
  plainPath a = true → plainPath b = true →
  join (join x a) b = join x a +:+ "/" +:+ b.
Proof.
  intros Ha Hb.
  by rewrite (PathFacts.join_plain _ b), (PathFacts.join_plain x a),
    PathFacts.base_base, !append_assoc.
Qed.

Lemma plainPath_joinSegments (segs : list string) :
  segs ≠ [] → Forall (λ seg, plainPath seg = true) segs →
  plainPath (joinSegments segs) = true.
Proof.
  induction segs as [|seg segs IH]; [done|]. intros _ [Hseg Hsegs]%Forall_cons.
  destruct segs as [|seg' segs]; [done|].
  rewrite PathFacts.joinSegments_cons by done.
  apply PathFacts.plainPath_append; [done|]. by apply IH.
Qed.

Lemma join_plain_plain (a b : string) :
  plainPath a = true → plainPath b = true → join a b = a +:+ "/" +:+ b.
Proof.
  intros Ha Hb. by rewrite PathFacts.join_plain, PathFacts.base_plain, append_assoc.
Qed.

Lemma fold_join_plain (ids : list string) (x k : string) :
  Forall (λ seg, plainPath seg = true) ids → plainPath k = true →
  join (fold_left join ids x) k = join x (joinSegments (ids ++ [k])).
Proof.
  intros Hids Hk. revert x.
  induction Hids as [|a rest Ha Hrest IH]; intros x; [done|]. simpl fold_left.
  rewrite IH.
  assert (rest ++ [k] ≠ []) as Hne by by destruct rest.
  assert (plainPath (joinSegments (rest ++ [k])) = true) as Hplain.
  { apply plainPath_joinSegments; [done|]. apply Forall_app. split; [done|].
    by apply Forall_singleton. }
  rewrite PathFacts.join_join_plain, (join_plain_plain a) by done.
  simpl app. by rewrite PathFacts.joinSegments_cons.
Qed.

Context {A : Type}.
Variable s : MeshStore A.

Lemma descendant_fields (ids : list string) :
  storage (descendant s ids) = storage s ∧
  flags (descendant s ids) = flags s ∧
  identifier (descendant s ids) = fold_left join ids (identifier s).
Proof.
  unfold descendant. revert s.
  induction ids as [|a ids IH]; intros s; [done|]. simpl.
  destruct (IH (MeshStore.child s a StoreFlags.no_overrides)) as (-> & -> & ->).
  simpl. split_and!; [done| |done].
  unfold StoreFlags.spread. simpl. by destruct (flags s).
Qed.

(** X20. The storage key of a proxy of a node that is reached through
    children with plain identifiers is the identifier of the first node
    joined with those identifiers and the key, one segment after the
    other: nesting to any depth addresses what the path of the names
    addresses from the top. *)
Theorem descendant_storage_key (ids : list string) (key : string)
    (strategy : ProxyOptions) :
  Forall (λ childIdentifier, plainPath childIdentifier = true) ids →
  plainPath key = true →
  path (MeshStore.proxy (descendant s ids) key strategy) =
    join (identifier s) (joinSegments (ids ++ [key])) ∧
  path (MeshStore.proxy (descendant s ids) key strategy) =
    path (MeshStore.proxy s (joinSegments (ids ++ [key])) strategy).
Proof.
  intros Hids Hkey. simpl.
  destruct (descendant_fields ids) as (_ & _ & ->).
  by rewrite fold_join_plain.
Qed.

End Descendants.

Section Inheritance.
Context {A W : Type} `{StoreStorageAdapter A W}.
Variable s : MeshStore A.

(** X21. A node that is reached through children that are given no
    overrides has the adapter and the flags of the node it comes from; so
    below a [readonly] node every [set], at any depth, throws a
    [ReadonlyStoreError] and does nothing. *)
Theorem descendant_inherits (ids : list string) (key : string)
    (strategy : ProxyOptions) (v : JsValue) (σ : ProxyState W) :
  storage (descendant s ids) = storage s ∧
  flags (descendant s ids) = flags s ∧
  (StoreFlags.readonly (flags s) = true →
   ∃ text,
     StoreProxy.set (MeshStore.proxy (descendant s ids) key strategy) v σ =
       (Throw (ReadonlyStoreError text), σ, [])).
Proof.
  destruct (descendant_fields s ids) as (Hstorage & Hflags & _).
  split_and!; [done..|]. intros Hro. eexists.
  rewrite set_run. unfold StoreProxy.readonly. simpl. by rewrite Hflags, Hro.
Qed.

End Inheritance.

Section CommandLine.
Context {World : Type}.
Variable pathExists : string → World → Completion bool * World.
Variable import : string → World → Completion FsStoreStorageAdapter.JsModule * World.
Variable writeFile : string → string → World → Completion unit * World.
Variable flatString : string → string.
Variable unlink : string → World → Completion unit * World.

Local Abbreviation fsAdapter :=
  (FsStoreStorageAdapter.adapter pathExists import writeFile flatString unlink).

(** X22. In the stores of the commands [build] and [validate], the storage
    key of a proxy for a plain key is the output directory, a separator and
    the key.  [set] on a proxy of the store of [build] neither loads nor
    validates: it makes one call, of [write] under that storage key.  When
    [codify] throws, [set] throws the same error and the medium is as it
    was; otherwise [set] ends as [writeFile] ends on the file of that name
    with the extension [mjs] and the flattened text.  In every case the
    slot holds the new value, and the [get] that follows returns it without
    a call, also when nothing was written. *)
Theorem Cli_artifact_file (baseDir key : string) (strategy : ProxyOptions)
    (v : JsValue) (σ : ProxyState World) :
  Path.plainPath key = true →
  let file := Cli.outputDir baseDir +:+ "/" +:+ key in
  let build := MeshStore.proxy (Cli.buildStore baseDir) key strategy in
  let run := @StoreProxy.set _ _ fsAdapter build v σ in
  path build = file ∧
  path (MeshStore.proxy (Cli.validateStore baseDir) key strategy) = file ∧
  run =
    match codify strategy v file with
    | Throw e =>
        (Throw e, {| value := v; isValueCached := true; medium := medium σ |},
         [StorageWrite file v])
    | Normal asString =>
        let '(r, w) := writeFile (file +:+ ".mjs") (flatString asString) (medium σ) in
        (r, {| value := v; isValueCached := true; medium := w |},
         [StorageWrite file v])
    end ∧
  @StoreProxy.get _ _ fsAdapter build run.1.2 = (Normal v, run.1.2, []).
Proof.
  intros Hkey file build run.
  assert (Path.join (Cli.outputDir baseDir) key = file) as Hfile.
  { unfold file, Cli.outputDir. by apply join_join_plain_text. }
  assert (run =
    match codify strategy v file with
    | Throw e =>
        (Throw e, {| value := v; isValueCached := true; medium := medium σ |},
         [StorageWrite file v])
    | Normal asString =>
        let '(r, w) := writeFile (file +:+ ".mjs") (flatString asString) (medium σ) in
        (r, {| value := v; isValueCached := true; medium := w |},
         [StorageWrite file v])
    end) as Hrun.
  { unfold run. rewrite set_run. simpl. rewrite Hfile.
    unfold FsStoreStorageAdapter.write.
    destruct (codify strategy v file) as [asString|e]; [|done].
    by destruct (writeFile _ _ _) as [r w]. }
  assert (value run.1.2 = v ∧ isValueCached run.1.2 = true) as [Hvalue Hcached].
  { rewrite Hrun. destruct (codify strategy v file) as [asString|e]; [|done].
    by destruct (writeFile _ _ _) as [r w]. }
  split_and!; [done..|].
  by rewrite get_run, ensureValueCached_cached, Hvalue.
Qed.

End CommandLine.

(** ** The further properties, on the small installation *)

Lemma set_updates_slot_before_write_witness :
  let p := MeshStore.proxy (Scenario.store false false) "k" Scenario.accepting in
  let run := StoreProxy.set p (JNumber 2) (fresh (Scenario.stored (JNumber 1))) in
  run.1.1 = Normal () ∧
  StoreProxy.get p run.1.2 = (Normal (JNumber 2), run.1.2, []).
Proof.
  intros p run. split; [reflexivity|].
  destruct (set_updates_slot_before_write (Scenario.store false false) "k"
              Scenario.accepting (JNumber 2) (fresh (Scenario.stored (JNumber 1)))
              ltac:(left; reflexivity)) as (_ & _ & Hget).
  exact Hget.
Defined.

Lemma readonly_store_is_not_mutated_witness :
  let p := MeshStore.proxy (Scenario.store true false) "j" Scenario.rejecting in
  let run := perform p (OpGetWithSet (Normal (JNumber 2)))
               (fresh (Scenario.stored (JNumber 1))) in
  Forall (λ c, isMutation c = false) run.2 ∧
  medium run.1.2 = Scenario.stored (JNumber 1).
Proof.
  intros p run.
  assert (OpGetWithSet (Normal (JNumber 2)) ≠ OpDelete) as Hop by discriminate.
  destruct (readonly_store_is_not_mutated (Scenario.store true false) "j"
              Scenario.rejecting (OpGetWithSet (Normal (JNumber 2)))
              (fresh (Scenario.stored (JNumber 1))) eq_refl Hop) as [Hcalls Hmedium].
  split; [exact Hcalls|exact (Hmedium InMemory_queries)].
Defined.

Lemma getWithSet_reads_through_or_computes_witness :
  StoreProxy.getWithSet
    (MeshStore.proxy (Scenario.store false false) "k" Scenario.accepting)
    (Normal (JNumber 2)) (fresh (Scenario.stored (JNumber 1))) =
  (Normal (JNumber 1), Scenario.loaded (JNumber 1),
   [StorageExists ".mesh/k"; StorageRead ".mesh/k"]).
Proof.
  exact (getWithSet_reads_through_or_computes (Scenario.store false false) "k"
           Scenario.accepting (Normal (JNumber 2))
           (fresh (Scenario.stored (JNumber 1))) (Scenario.loaded (JNumber 1))
           [StorageExists ".mesh/k"; StorageRead ".mesh/k"]
           eq_refl eq_refl eq_refl).
Defined.

Lemma getWithSet_readonly_drops_candidate_witness :
  StoreProxy.getWithSet
    (MeshStore.proxy (Scenario.store true false) "j" Scenario.accepting)
    (Normal (JNumber 2)) (fresh (Scenario.stored (JNumber 1))) =
  (Normal JUndefined,
   {| value := JUndefined; isValueCached := true;
      medium := Scenario.stored (JNumber 1) |},
   [StorageExists ".mesh/j"; SetterFn]).
Proof.
  exact (getWithSet_readonly_drops_candidate (Scenario.store true false) "j"
           Scenario.accepting (Normal (JNumber 2))
           (fresh (Scenario.stored (JNumber 1)))
           {| value := JUndefined; isValueCached := true;
              medium := Scenario.stored (JNumber 1) |}
           [StorageExists ".mesh/j"] eq_refl eq_refl eq_refl).
Defined.

Lemma getWithSet_computes_once_witness :
  let p := MeshStore.proxy (Scenario.store false false) "j" Scenario.accepting in
  let σ' := (StoreProxy.getWithSet p (Normal (JNumber 2))
               (fresh (Scenario.stored (JNumber 1)))).1.2 in
  StoreProxy.getWithSet p (Throw (Error "not called")) σ' = (Normal (JNumber 2), σ', []).
Proof.
  exact (getWithSet_computes_once (Scenario.store false false) "j"
           Scenario.accepting (Normal (JNumber 2)) (Throw (Error "not called"))
           (fresh (Scenario.stored (JNumber 1))) (JNumber 2)
           eq_refl eq_refl eq_refl).
Defined.

Lemma slot_stays_consistent_witness :
  slotConsistent
    (perform (MeshStore.proxy (Scenario.store false false) "k" Scenario.accepting)
       OpGet (fresh (Scenario.stored (JNumber 1)))).1.2.
Proof.
  apply (slot_stays_consistent (Scenario.store false false) "k" Scenario.accepting
           OpGet (fresh (Scenario.stored (JNumber 1)))).
  intros _. reflexivity.
Defined.

Lemma set_with_validate_nothing_witness :
  (StoreProxy.set
     (MeshStore.proxy (Scenario.store false true) "k" Scenario.accepting)
     (JNumber 2) (fresh (Scenario.stored (JNumber 1)))).1.1 = Normal ().
Proof.
  assert (StoreProxy.ensureValueCached
            (MeshStore.proxy (Scenario.store false true) "k" Scenario.accepting)
            (fresh (Scenario.stored (JNumber 1))) =
          (Normal (), Scenario.loaded (JNumber 1),
           [StorageExists ".mesh/k"; StorageRead ".mesh/k"])) as Hload
    by reflexivity.
  destruct (set_with_validate_nothing (Scenario.store false true) "k"
              Scenario.accepting (JNumber 2) (fresh (Scenario.stored (JNumber 1)))
              (Scenario.loaded (JNumber 1))
              [StorageExists ".mesh/k"; StorageRead ".mesh/k"]
              eq_refl eq_refl eq_refl Hload) as (Hret & _).
  exact Hret.
Defined.

Lemma getWithSet_validating_store_witness :
  let p := MeshStore.proxy (Scenario.store false true) "k" Scenario.rejecting in
  StoreProxy.getWithSet p (Normal (JNumber 2)) (Scenario.loaded (JNumber 1)) =
  (Throw (ValidationError (StoreProxy.validationMessage p (Error "incompatible"))),
   Scenario.loaded (JNumber 1),
   [SetterFn; OptionsValidate (JNumber 1) (JNumber 2) "k"]).
Proof.
  exact (getWithSet_validating_store (Scenario.store false true) "k"
           Scenario.rejecting (JNumber 2) (Scenario.loaded (JNumber 1))
           eq_refl eq_refl eq_refl).
Defined.

Lemma InMemory_write_then_read_witness :
  let h' := (InMemoryStoreStorageAdapter.write Scenario.memory ".mesh/j" (JNumber 2)
               Scenario.accepting (Scenario.stored (JNumber 1))).2 in
  InMemoryStoreStorageAdapter.read Scenario.memory ".mesh/j" Scenario.accepting h'
    = (Normal (JNumber 2), h') ∧
  InMemoryStoreStorageAdapter.read Scenario.memory ".mesh/k" Scenario.accepting h'
    = (Normal (JNumber 1), h').
Proof.
  intros h'.
  destruct (InMemory_write_then_read Scenario.memory ".mesh/j" (JNumber 2)
              Scenario.accepting Scenario.accepting (Scenario.stored (JNumber 1)))
    as (_ & _ & Hread & Hothers & _).
  split; [exact Hread|].
  assert (".mesh/k" ≠ ".mesh/j") as Hne by discriminate.
  exact (proj2 (Hothers ".mesh/k" Hne)).
Defined.

Lemma InMemory_delete_then_missing_witness :
  let h' := (InMemoryStoreStorageAdapter.delete Scenario.memory ".mesh/j"
               (Scenario.stored (JNumber 1))).2 in
  InMemoryStoreStorageAdapter.exists_ Scenario.memory ".mesh/j" h' = (Normal false, h') ∧
  InMemoryStoreStorageAdapter.exists_ Scenario.memory ".mesh/k" h' = (Normal true, h').
Proof.
  intros h'.
  destruct (InMemory_delete_then_missing Scenario.memory ".mesh/j"
              Scenario.accepting (Scenario.stored (JNumber 1)))
    as (_ & Hexists & _ & Hothers & _).
  split; [exact Hexists|].
  assert (".mesh/k" ≠ ".mesh/j") as Hne by discriminate.
  exact (proj1 (Hothers ".mesh/k" Hne)).
Defined.

Lemma InMemory_clear_empties_witness :
  let other := {| InMemoryStoreStorageAdapter.data := 1 |} in
  let h := <[1%nat := {[ "x" := JNull ]}]> (Scenario.stored (JNumber 1)) in
  InMemoryStoreStorageAdapter.data_of other
    (InMemoryStoreStorageAdapter.clear Scenario.memory h) !! "x" = Some JNull.
Proof.
  intros other h.
  destruct (InMemory_clear_empties Scenario.memory h) as (_ & Hothers).
  assert (InMemoryStoreStorageAdapter.data other
          ≠ InMemoryStoreStorageAdapter.data Scenario.memory) as Hne by discriminate.
  rewrite (Hothers other Hne). reflexivity.
Defined.


Lemma Fs_get_never_falsy_witness :
  let m := {| FsStoreStorageAdapter.default_export := JNumber 0;
              FsStoreStorageAdapter.namespace := JObject [("default", JNumber 0)] |} in
  let fsAdapter :=
    FsStoreStorageAdapter.adapter Scenario.pathExists (Scenario.importOf m)
      Scenario.writeFile (λ text, text) Scenario.unlink in
  let p := MeshStore.proxy (Scenario.fsStore false false) "k" Scenario.accepting in
  let run := @StoreProxy.get _ _ fsAdapter p (fresh Scenario.brokenFiles) in
  run.1.1 = Normal (JObject [("default", JNumber 0)]) ∧
  (JObject [("default", JNumber 0)] = JUndefined ∨
   truthy (JObject [("default", JNumber 0)]) = true).
Proof.
  intros m fsAdapter p run. split; [reflexivity|].
  destruct (Fs_get_never_falsy Scenario.pathExists (Scenario.importOf m)
              Scenario.writeFile (λ text, text) Scenario.unlink Cli.adapter)
    as (_ & Hget).
  assert (∀ (filePath : string) (w : gmap string string)
            (m' : FsStoreStorageAdapter.JsModule) (w' : gmap string string),
            Scenario.importOf m filePath w = (Normal m', w') →
            truthy (FsStoreStorageAdapter.namespace m') = true) as Hobject.
  { intros filePath w m' w' Himport. injection Himport as <- _. reflexivity. }
  exact (Hget Hobject (Scenario.fsStore false false) "k" Scenario.accepting
           Scenario.brokenFiles _ _ _ eq_refl).
Defined.

Lemma InMemory_errors_witness :
  let s := Scenario.store true false in
  let p := MeshStore.proxy s "k" Scenario.accepting in
  let e := ReadonlyStoreError (StoreProxy.readonlyMessage p) in
  (StoreFlags.readonly (flags s) = true ∧
   e = ReadonlyStoreError (StoreProxy.readonlyMessage p)) ∨
  (StoreFlags.readonly (flags s) = false ∧ StoreFlags.validate (flags s) = true ∧
   ∃ e', e = ValidationError (StoreProxy.validationMessage p e')).
Proof.
  intros s p e.
  assert ((perform p (OpSet (JNumber 2)) (fresh (Scenario.stored (JNumber 1)))).1.1
          = Throw e) as Hthrow by reflexivity.
  exact (InMemory_errors s "k" Scenario.accepting (OpSet (JNumber 2))
           (fresh (Scenario.stored (JNumber 1))) e Hthrow).
Defined.

Lemma InMemory_set_then_new_proxy_witness :
  let p := MeshStore.proxy (Scenario.store false false) "j" Scenario.accepting in
  let h' := medium (StoreProxy.set p (JNumber 2)
                      (fresh (Scenario.stored (JNumber 1)))).1.2 in
  (StoreProxy.get
     (MeshStore.proxy (Scenario.store true true) "j" Scenario.rejecting)
     (fresh h')).1.1 = Normal (JNumber 2).
Proof.
  intros p h'.
  exact (f_equal (λ run, run.1.1)
           (InMemory_set_then_new_proxy (Scenario.store false false) "j"
              Scenario.accepting (Scenario.store true true) Scenario.rejecting
              (JNumber 2) (fresh (Scenario.stored (JNumber 1)))
              eq_refl eq_refl eq_refl)).
Defined.

Lemma InMemory_delete_then_new_proxy_witness :
  let p := MeshStore.proxy (Scenario.store true false) "k" Scenario.accepting in
  let h' := medium (StoreProxy.delete p (Scenario.loaded (JNumber 1))).1.2 in
  (StoreProxy.get p (fresh h')).1.1 = Normal JUndefined.
Proof.
  intros p h'.
  destruct (InMemory_delete_then_new_proxy (Scenario.store true false) "k"
              Scenario.accepting (Scenario.store true false) Scenario.accepting
              (Scenario.loaded (JNumber 1)) eq_refl eq_refl) as [_ Hget].
  exact (f_equal (λ run, run.1.1) Hget).
Defined.

Lemma escapeForTemplateLiteral_spec_witness :
  escapeForTemplateLiteral "type Query { a: String }" = "type Query { a: String }".
Proof.
  destruct (escapeForTemplateLiteral_spec "type Query { a: String }" "")
    as (_ & _ & _ & Hplain).
  apply Hplain; reflexivity.
Defined.

Lemma StringWithoutValidation_codify_inj_witness :
  StringWithoutValidation_codify "a`b" "x" ≠ StringWithoutValidation_codify "a\`b" "x".
Proof.
  intros Heq.
  destruct (StringWithoutValidation_codify_inj "a`b" "a\`b" "x" "x") as [_ Hinj].
  apply Hinj in Heq. discriminate Heq.
Defined.

Lemma descendant_inherits_witness :
  ∃ text,
    StoreProxy.set
      (MeshStore.proxy (descendant (Scenario.store true false) ["sources"; "petstore"])
         "schema" Scenario.accepting)
      (JNumber 2) (fresh (Scenario.stored (JNumber 1))) =
    (Throw (ReadonlyStoreError text), fresh (Scenario.stored (JNumber 1)), []).
Proof.
  destruct (descendant_inherits (Scenario.store true false) ["sources"; "petstore"]
              "schema" Scenario.accepting (JNumber 2)
              (fresh (Scenario.stored (JNumber 1)))) as (_ & _ & Hset).
  exact (Hset eq_refl).
Defined.

Lemma descendant_storage_key_witness :
  path (MeshStore.proxy
          (descendant (Scenario.store false false) ["sources"; "petstore"])
          "schema" Scenario.accepting) =
  Path.join ".mesh" "sources/petstore/schema".
Proof.
  apply (descendant_storage_key (Scenario.store false false)
           ["sources"; "petstore"] "schema" Scenario.accepting).
  - repeat constructor.
  - reflexivity.
Defined.

Lemma Cli_artifact_file_witness :
  let build := MeshStore.proxy (Cli.buildStore "/app") "schema" Scenario.unprintable in
  let run := @StoreProxy.set _ _ Scenario.fsAdapter build (JNumber 2)
               (fresh Scenario.brokenFiles) in
  path build = "/app/.mesh/schema" ∧
  run.1.1 = Throw (Error "not serializable") ∧
  medium run.1.2 = Scenario.brokenFiles ∧
  @StoreProxy.get _ _ Scenario.fsAdapter build run.1.2 =
    (Normal (JNumber 2), run.1.2, []).
Proof.
  intros build run.
  destruct (Cli_artifact_file Scenario.pathExists Scenario.failingImport
              Scenario.writeFile (λ text, text) Scenario.unlink "/app" "schema"
              Scenario.unprintable (JNumber 2) (fresh Scenario.brokenFiles) eq_refl)
    as (Hpath & _ & Hrun & Hget).
  split_and!; [exact Hpath|reflexivity|reflexivity|exact Hget].
Defined.
